(** * LearningMaterialPopup.js: the contact pop-up and its multi-select dropdown

    A shallow embedding of [src/components/LearningMaterialPopup.js] and the
    properties of its validation, submission, selection toggling, close timer
    and header rendering.

    JavaScript strings are sequences of UTF-16 code units; they are modelled
    as lists of [N].  Arrays live in a store and are named by references, so
    that "a new array is passed to the setter" can be told apart from "the
    array is changed in place". *)

From Stdlib Require Import NArith String Ascii Bool Lia.
From stdpp Require Import base option list.

Local Open Scope N_scope.

(** ** JavaScript strings *)

Module JS.

Definition JSString := list N.

(** The code unit of an ASCII character, and the string of an ASCII literal. *)
Definition ch (a : ascii) : N := N_of_ascii a.
Definition str (s : string) : JSString := map N_of_ascii (list_ascii_of_string s).

Definition inRange (lo hi c : N) : bool := (lo <=? c) && (c <=? hi).

(** ECMAScript WhiteSpace and LineTerminator code points: the units removed
    by [String.prototype.trim] and matched by the class escape [\s]. *)
Definition isWhiteSpace (c : N) : bool :=
  inRange 9 13 c          (* TAB, LF, VT, FF, CR *)
  || (c =? 32)            (* SPACE *)
  || (c =? 160)           (* NO-BREAK SPACE *)
  || (c =? 5760)          (* OGHAM SPACE MARK *)
  || inRange 8192 8202 c  (* EN QUAD .. HAIR SPACE *)
  || inRange 8232 8233 c  (* LINE SEPARATOR, PARAGRAPH SEPARATOR *)
  || (c =? 8239)          (* NARROW NO-BREAK SPACE *)
  || (c =? 8287)          (* MEDIUM MATHEMATICAL SPACE *)
  || (c =? 12288)         (* IDEOGRAPHIC SPACE *)
  || (c =? 65279).        (* ZERO WIDTH NO-BREAK SPACE *)

Fixpoint trimStart (s : JSString) : JSString :=
  match s with
  | c :: r => if isWhiteSpace c then trimStart r else s
  | [] => []
  end.

Definition trimEnd (s : JSString) : JSString := rev (trimStart (rev s)).

(** [s.trim()] *)
Definition trim (s : JSString) : JSString := trimEnd (trimStart s).

(** ToBoolean on a string: only the empty string is falsy. *)
Definition truthy (s : JSString) : bool :=
  match s with [] => false | _ :: _ => true end.

(** [a === b] on two strings: the same sequence of code units. *)
Definition strictEquals (a b : JSString) : bool := bool_decide (a = b).

Definition isDigit (c : N) : bool := inRange 48 57 c.
Definition isLower (c : N) : bool := inRange 97 122 c.
Definition isUpper (c : N) : bool := inRange 65 90 c.
(** The word characters of [\w]: letters, digits and the underscore. *)
Definition isWordChar (c : N) : bool :=
  isLower c || isUpper c || isDigit c || (c =? 95).

End JS.

Import JS.

(** ** The regular expressions of the validation

    The fragment of ECMAScript patterns the two literals are written in: the
    assertions [^] and [$] and greedily quantified atoms, an atom being a
    pattern character or a character class.  The matcher is the backtracking
    matcher of the language definition, with the rest of the pattern as the
    continuation. *)

Module RegExp.

Inductive ClassAtom : Type :=
| ClassChar (c : N)          (* a character of the class, escaped or not *)
| ClassRange (lo hi : N)     (* lo-hi *)
| ClassWord                  (* \w *)
| ClassDigit                 (* \d *)
| ClassSpace.                (* \s *)

Inductive Atom : Type :=
| PatternChar (c : N)
| CharClass (atoms : list ClassAtom).

Inductive Term : Type :=
| AssertStart                                   (* ^ *)
| AssertEnd                                     (* $ *)
| Quant (a : Atom) (min : nat) (max : option nat).
    (* a{min,max}, greedy; a bare atom is a{1,1}, a+ is a{1,}, a? is a{0,1} *)

Record Pattern : Type := { terms : list Term; ignoreCase : bool }.

Definition classMember (a : ClassAtom) (c : N) : bool :=
  match a with
  | ClassChar x => c =? x
  | ClassRange lo hi => inRange lo hi c
  | ClassWord => isWordChar c
  | ClassDigit => isDigit c
  | ClassSpace => isWhiteSpace c
  end.

Definition atomSet (a : Atom) (c : N) : bool :=
  match a with
  | PatternChar x => c =? x
  | CharClass atoms => existsb (fun m => classMember m c) atoms
  end.

(** Canonicalize of a pattern without the [u] flag: the upper-case mapping
    of the unit, never taking a unit from 128 on to one below 128.  The
    mapping of the units from 128 on is not reproduced (they are left as
    they are): the only pattern with the [i] flag here has ASCII members
    only, and such a unit is canonicalized to a unit from 128 on under
    either mapping, so it matches none of them. *)
Definition canonicalize (c : N) : N :=
  if isLower c then c - 32 else c.

Definition lowerOf (c : N) : N :=
  if isUpper c then c + 32 else c.

(** CharacterSetMatcher: with [i], a unit matches when a member of the set
    has its canonical form; the units with canonical form [cc] are [cc] and
    its lower-case letter. *)
Definition charSetMatcher (ic : bool) (A : N -> bool) (c : N) : bool :=
  if ic then
    let cc := canonicalize c in A cc || A (lowerOf cc)
  else A c.

Definition decr (max : option nat) : option nat :=
  match max with Some n => Some (Nat.pred n) | None => None end.

(** RepeatMatcher for a one-unit atom [m]: take one more unit while the
    upper bound allows, and fall back on the continuation once the lower
    bound is met.  [atStart] tells whether the position is still index 0. *)
Fixpoint repeatMatcher (m : N -> bool) (min : nat) (max : option nat)
    (k : bool -> JSString -> bool) (atStart : bool) (s : JSString) {struct s} : bool :=
  let stop := match min with O => k atStart s | S _ => false end in
  match max with
  | Some O => stop
  | _ =>
      match s with
      | c :: r =>
          if m c
          then repeatMatcher m (Nat.pred min) (decr max) k false r || stop
          else stop
      | [] => stop
      end
  end.

Fixpoint matchTerms (ic : bool) (ts : list Term) (atStart : bool) (s : JSString) : bool :=
  match ts with
  | [] => true
  | AssertStart :: ts' => atStart && matchTerms ic ts' atStart s
  | AssertEnd :: ts' =>
      match s with [] => matchTerms ic ts' atStart s | _ :: _ => false end
  | Quant a min max :: ts' =>
      repeatMatcher (charSetMatcher ic (atomSet a)) min max (matchTerms ic ts') atStart s
  end.

(** The search of [RegExp.prototype.exec] without the [g] and [y] flags:
    the match is tried at index 0, then at each later index. *)
Fixpoint execFrom (p : Pattern) (atStart : bool) (s : JSString) : bool :=
  matchTerms (ignoreCase p) (terms p) atStart s
  || match s with
     | [] => false
     | _ :: r => execFrom p false r
     end.

(** [p.test(s)] *)
Definition test (p : Pattern) (s : JSString) : bool := execFrom p true s.

(** The bounds of a quantifier, for the statements about the matcher. *)
Definition within (max : option nat) (n : nat) : Prop :=
  match max with Some b => (n ≤ b)%nat | None => True end.

Definition noneTaken (a : JSString) : bool :=
  match a with [] => true | _ :: _ => false end.

End RegExp.

Import RegExp.

(** ** validateContactInfo *)

(** [/^[\w-.]+@[\w-]+\.[a-z]{2,}$/i] *)
Definition emailRegex : Pattern :=
  {| terms :=
       [ AssertStart;
         Quant (CharClass [ClassWord; ClassChar (ch "-"); ClassChar (ch ".")]) 1 None;
         Quant (PatternChar (ch "@")) 1 (Some 1%nat);
         Quant (CharClass [ClassWord; ClassChar (ch "-")]) 1 None;
         Quant (PatternChar (ch ".")) 1 (Some 1%nat);
         Quant (CharClass [ClassRange (ch "a") (ch "z")]) 2 None;
         AssertEnd ];
     ignoreCase := true |}.

(** [/^\+?[\d\s\-().]{7,20}$/] *)
Definition phoneRegex : Pattern :=
  {| terms :=
       [ AssertStart;
         Quant (PatternChar (ch "+")) 0 (Some 1%nat);
         Quant (CharClass [ClassDigit; ClassSpace; ClassChar (ch "-");
                           ClassChar (ch "("); ClassChar (ch ")"); ClassChar (ch ".")])
               7 (Some 20%nat);
         AssertEnd ];
     ignoreCase := false |}.

Definition validateContactInfo (info : JSString) : bool :=
  test emailRegex (trim info) || test phoneRegex (trim info).

(** ** Arrays in the store

    [filter] and the spread literal build a new array; the state setters of
    React receive a reference.  The store keeps the arrays in the order of
    their allocation and a reference is an index of it. *)

Module Store.

Definition Ref := nat.
Definition Heap := list (list JSString).

Definition alloc (h : Heap) (a : list JSString) : Heap * Ref :=
  (h ++ [a], length h).

End Store.

Import Store.

(** ** MultiSelectDropdown *)

Module Dropdown.

(** An option object [{ text, value }]. *)
Record OptionObj : Type := { text : JSString; value : JSString }.

(** [selectedOptions.includes(value)]: SameValueZero, which on strings is
    the equality of the code units. *)
Definition includes (a : list JSString) (v : JSString) : bool :=
  bool_decide (v ∈ a).

(** [handleOptionClick]: the reference the setter [setSelectedOptions] is
    called with, in the store that holds the new array.  Reading a
    reference that names no array gives [None]. *)
Definition handleOptionClick (h : Heap) (selectedOptions : Ref) (v : JSString)
    : option (Heap * Ref) :=
  arr ← h !! selectedOptions;
  Some (if includes arr v
        then alloc h (filter (λ x, x ≠ v) arr)
        else alloc h (arr ++ [v])).

(** The elements of the array [handleOptionClick] builds from [arr]. *)
Definition toggled (arr : list JSString) (v : JSString) : list JSString :=
  if includes arr v then filter (λ x, x ≠ v) arr else arr ++ [v].

(** *** The close timer

    [setTimeout] hands out the identifiers 1, 2, ...; a pending timer is
    its identifier and the time (in ms) at which it is due.  Every timer of
    the widget runs the same callback, [setIsOpen(false)]. *)

Record Widget : Type := {
  isOpen : bool;
  closeTimeoutRef : option nat;      (* [None] is [null] *)
  pending : list (nat * nat);        (* identifier, due time *)
  nextId : nat;
  now : nat
}.

Definition mounted : Widget :=
  {| isOpen := false; closeTimeoutRef := None; pending := []; nextId := 1; now := 0 |}.

Definition toggleDropdown (w : Widget) : Widget :=
  {| isOpen := negb (isOpen w); closeTimeoutRef := closeTimeoutRef w;
     pending := pending w; nextId := nextId w; now := now w |}.

Definition handleMouseLeave (w : Widget) : Widget :=
  {| isOpen := isOpen w;
     closeTimeoutRef := Some (nextId w);
     pending := pending w ++ [(nextId w, (now w + 300)%nat)];
     nextId := S (nextId w);
     now := now w |}.

Definition clearTimeout (id : nat) (ts : list (nat * nat)) : list (nat * nat) :=
  filter (λ t, t.1 ≠ id) ts.

Definition handleMouseEnter (w : Widget) : Widget :=
  match closeTimeoutRef w with
  | Some (S _ as id) =>
      {| isOpen := isOpen w; closeTimeoutRef := None;
         pending := clearTimeout id (pending w);
         nextId := nextId w; now := now w |}
  | _ => w
  end.

(** [dt] ms go by: the timers that are due run their callback and are
    gone. *)
Definition elapse (dt : nat) (w : Widget) : Widget :=
  let t := (now w + dt)%nat in
  let due := filter (λ p, (p.2 ≤ t)%nat) (pending w) in
  {| isOpen := match due with [] => isOpen w | _ :: _ => false end;
     closeTimeoutRef := closeTimeoutRef w;
     pending := filter (λ p, ¬ (p.2 ≤ t)%nat) (pending w);
     nextId := nextId w;
     now := t |}.

Inductive Event : Type :=
| HeaderClick
| MouseLeave
| MouseEnter
| Elapse (dt : nat).

Definition step (w : Widget) (e : Event) : Widget :=
  match e with
  | HeaderClick => toggleDropdown w
  | MouseLeave => handleMouseLeave w
  | MouseEnter => handleMouseEnter w
  | Elapse dt => elapse dt w
  end.

Definition run (w : Widget) (es : list Event) : Widget := foldl step w es.

(** *** The header *)

Inductive Result (A : Type) : Type :=
| Returns (a : A)
| ThrowsTypeError.
Arguments Returns {A} a.
Arguments ThrowsTypeError {A}.

Record Chip : Type := { key : JSString; chipText : JSString; ariaLabel : JSString }.

Inductive Header : Type :=
| Hint (t : JSString)          (* the grey span *)
| Chips (cs : list Chip).

(** [options.find((opt) => opt.value === value)] *)
Definition findOption (options : list OptionObj) (v : JSString) : option OptionObj :=
  List.find (fun opt => strictEquals (value opt) v) options.

Definition chipOf (options : list OptionObj) (v : JSString) : Chip :=
  let option := findOption options v in
  let shown := match option with Some o => text o | None => v end in
  {| key := v; chipText := shown; ariaLabel := str "Remove " ++ shown |}.

(** The children of the header [div] before the arrow.  [options[0].text]
    is a property read on [undefined] when [options] is empty. *)
Definition renderHeader (options : list OptionObj) (selectedOptions : list JSString)
    : Result Header :=
  if (length selectedOptions =? 0)%nat then
    match options with
    | o :: _ => Returns (Hint (text o))
    | [] => ThrowsTypeError
    end
  else Returns (Chips (map (chipOf options) selectedOptions)).

(** [o] is the first option of the list whose value is [v]. *)
Definition firstWithValue (options : list OptionObj) (v : JSString) (o : OptionObj) : Prop :=
  ∃ i, options !! i = Some o ∧ value o = v
       ∧ ∀ j o', (j < i)%nat → options !! j = Some o' → value o' ≠ v.

End Dropdown.

(** ** LearningMaterialPopup *)

Module Popup.

Import Dropdown.

Definition materialOptions : list OptionObj :=
  [ {| text := str "JavaScript"; value := str "javascript" |};
    {| text := str "React"; value := str "react" |} ].

Definition preferenceOptions : list OptionObj :=
  [ {| text := str "Online"; value := str "online" |};
    {| text := str "In-person"; value := str "inperson" |};
    {| text := str "Self-paced"; value := str "selfpaced" |} ].

Record State : Type := {
  selectedMaterials : Ref;
  selectedPreferences : Ref;
  contactInfo : JSString;
  error : JSString
}.

Record World : Type := { heap : Heap; state : State }.

(** The four [useState] calls of the first render. *)
Definition mount : World :=
  {| heap := [ []; [] ];
     state := {| selectedMaterials := 0%nat; selectedPreferences := 1%nat;
                 contactInfo := []; error := [] |} |}.

(** The object [onNext] receives. *)
Record Payload : Type := {
  p_contactInfo : JSString;
  p_selectedMaterials : Ref;
  p_selectedPreferences : Ref
}.

Definition setError (st : State) (e : JSString) : State :=
  {| selectedMaterials := selectedMaterials st;
     selectedPreferences := selectedPreferences st;
     contactInfo := contactInfo st; error := e |}.

Definition setContactInfo (st : State) (c : JSString) : State :=
  {| selectedMaterials := selectedMaterials st;
     selectedPreferences := selectedPreferences st;
     contactInfo := c; error := error st |}.

Definition setSelectedMaterials (st : State) (r : Ref) : State :=
  {| selectedMaterials := r;
     selectedPreferences := selectedPreferences st;
     contactInfo := contactInfo st; error := error st |}.

Definition setSelectedPreferences (st : State) (r : Ref) : State :=
  {| selectedMaterials := selectedMaterials st;
     selectedPreferences := r;
     contactInfo := contactInfo st; error := error st |}.

(** [handleNextClick]: the state after the handler and the calls of
    [onNext] it made.  [onNext] tells whether the prop was supplied. *)
Definition handleNextClick (onNext : bool) (st : State) : State * list Payload :=
  if negb (truthy (trim (contactInfo st))) then
    (setError st (str "Contact info is required."), [])
  else if negb (validateContactInfo (trim (contactInfo st))) then
    (setError st (str "Please enter a valid phone number or email address."), [])
  else
    (setError st [],
     if onNext
     then [ {| p_contactInfo := trim (contactInfo st);
               p_selectedMaterials := selectedMaterials st;
               p_selectedPreferences := selectedPreferences st |} ]
     else []).

Inductive Event : Type :=
| ContactChange (v : JSString)          (* onChange of the input *)
| MaterialClick (v : JSString)          (* handleOptionClick of the first dropdown *)
| PreferenceClick (v : JSString)        (* handleOptionClick of the second *)
| NextClick.

Definition step (onNext : bool) (w : World) (e : Event) : option (World * list Payload) :=
  match e with
  | ContactChange v =>
      Some ({| heap := heap w; state := setContactInfo (state w) v |}, [])
  | MaterialClick v =>
      '(h, r) ← handleOptionClick (heap w) (selectedMaterials (state w)) v;
      Some ({| heap := h; state := setSelectedMaterials (state w) r |}, [])
  | PreferenceClick v =>
      '(h, r) ← handleOptionClick (heap w) (selectedPreferences (state w)) v;
      Some ({| heap := h; state := setSelectedPreferences (state w) r |}, [])
  | NextClick =>
      let '(st, calls) := handleNextClick onNext (state w) in
      Some ({| heap := heap w; state := st |}, calls)
  end.

Fixpoint run (onNext : bool) (w : World) (es : list Event) : option (World * list Payload) :=
  match es with
  | [] => Some (w, [])
  | e :: es' =>
      '(w1, c1) ← step onNext w e;
      '(w2, c2) ← run onNext w1 es';
      Some (w2, c1 ++ c2)
  end.

(** The arrays the two selections name. *)
Definition materials (w : World) : option (list JSString) :=
  heap w !! selectedMaterials (state w).
Definition preferences (w : World) : option (list JSString) :=
  heap w !! selectedPreferences (state w).

(** Both selections name an array of the store, without duplicates. *)
Definition duplicateFree (w : World) : Prop :=
  ∃ ms ps, materials w = Some ms ∧ NoDup ms ∧ preferences w = Some ps ∧ NoDup ps.

End Popup.

(** ** The patterns as the specification words them *)

Module Spec.

Definition isLetter (c : N) : bool := isLower c || isUpper c.

(** One or more of word characters, hyphen, dot; [@]; one or more of word
    characters, hyphen; a dot; two or more letters of either case. *)
Definition isLocalChar (c : N) : bool :=
  isWordChar c || (c =? ch "-") || (c =? ch ".").
Definition isDomainChar (c : N) : bool :=
  isWordChar c || (c =? ch "-").

Definition email_pattern (s : JSString) : Prop :=
  ∃ l d t : JSString,
    s = l ++ [ch "@"] ++ d ++ [ch "."] ++ t
    ∧ (1 ≤ length l)%nat ∧ forallb isLocalChar l = true
    ∧ (1 ≤ length d)%nat ∧ forallb isDomainChar d = true
    ∧ (2 ≤ length t)%nat ∧ forallb isLetter t = true.

(** An optional [+], then 7 to 20 characters of the set [body]. *)
Definition phone_pattern (body : N -> bool) (s : JSString) : Prop :=
  ∃ sign rest : JSString,
    s = sign ++ rest
    ∧ (sign = [] ∨ sign = [ch "+"])
    ∧ (7 ≤ length rest)%nat ∧ (length rest ≤ 20)%nat
    ∧ forallb body rest = true.

(** Digits, space, hyphen, parentheses, dot. *)
Definition isPhoneChar_space (c : N) : bool :=
  isDigit c || (c =? ch " ") || (c =? ch "-") || (c =? ch "(") || (c =? ch ")")
  || (c =? ch ".").

(** The same set with every white space character in the place of the
    space. *)
Definition isPhoneChar_whitespace (c : N) : bool :=
  isDigit c || isWhiteSpace c || (c =? ch "-") || (c =? ch "(") || (c =? ch ")")
  || (c =? ch ".").

End Spec.

(** ** The rest of the dropdown: the open list, the document listener and
    the pointer *)

Module Widget.

Import Dropdown.

(** A row of the open list: the [label] with its checkbox. *)
Record Row : Type := { rowKey : JSString; checked : bool; rowText : JSString }.

Definition rowOf (selectedOptions : list JSString) (option : OptionObj) : Row :=
  {| rowKey := value option;
     checked := includes selectedOptions (value option);
     rowText := text option |}.

(** [{isOpen && (<div className="dropdown-list">...)}]: the rows, or nothing
    while the dropdown is closed. *)
Definition renderList (options : list OptionObj) (selectedOptions : list JSString)
    (open : bool) : option (list Row) :=
  if open then Some (map (rowOf selectedOptions) options) else None.

(** The arrow at the end of the header. *)
Definition arrow (open : bool) : JSString :=
  if open then [9650] else [9660].

(** [handleClickOutside]: [current] tells whether [dropdownRef.current] is
    set, [contains] whether the widget contains the target of the event. *)
Definition handleClickOutside (current contains : bool) (w : Widget) : Widget :=
  if current && negb contains
  then {| isOpen := false; closeTimeoutRef := closeTimeoutRef w;
          pending := pending w; nextId := nextId w; now := now w |}
  else w.

(** The events of the widget together with the [mousedown] events of the
    document. *)
Inductive Interaction : Type :=
| OnWidget (e : Event)
| MouseDown (current contains : bool).

Definition interact (w : Widget) (i : Interaction) : Widget :=
  match i with
  | OnWidget e => step w e
  | MouseDown current contains => handleClickOutside current contains w
  end.

Definition interactions (w : Widget) (acts : list Interaction) : Widget :=
  foldl interact w acts.

Definition isHeaderClick (i : Interaction) : bool :=
  match i with OnWidget HeaderClick => true | _ => false end.

(** The pointer: a browser sends [mouseleave] when the pointer is inside and
    [mouseenter] when it is outside.  [alternates inside es] tells whether
    [es] is such a sequence from a pointer that is [inside], and
    [pointerAfter inside es] where the pointer is after it. *)
Fixpoint alternates (inside : bool) (es : list Event) : bool :=
  match es with
  | [] => true
  | MouseLeave :: es' => inside && alternates false es'
  | MouseEnter :: es' => negb inside && alternates true es'
  | _ :: es' => alternates inside es'
  end.

Fixpoint pointerAfter (inside : bool) (es : list Event) : bool :=
  match es with
  | [] => inside
  | MouseLeave :: es' => pointerAfter false es'
  | MouseEnter :: es' => pointerAfter true es'
  | _ :: es' => pointerAfter inside es'
  end.

(** The pending closes as the alternation keeps them: none while the
    pointer is inside, and at most the one the ref names while it is
    outside. *)
Definition tidy (inside : bool) (w : Widget) : Prop :=
  nextId w ≠ 0%nat
  ∧ if inside then pending w = []
    else pending w = []
         ∨ ∃ id due, pending w = [(S id, due)] ∧ closeTimeoutRef w = Some (S id).

(** The row with its checkbox the other way when it is the row of [v]. *)
Definition flipRowOf (v : JSString) (row : Row) : Row :=
  if bool_decide (rowKey row = v)
  then {| rowKey := rowKey row; checked := negb (checked row); rowText := rowText row |}
  else row.

End Widget.

(** ** The clicks the rendered pop-up offers *)

Module Session.

Import Dropdown Popup.

(** A value can be toggled through the checkbox of its option in the open
    list, or through the button of its chip when it is selected. *)
Definition clickable (options : list OptionObj) (sel : option (list JSString))
    (v : JSString) : bool :=
  bool_decide (v ∈ map value options)
  || match sel with Some a => includes a v | None => false end.

Definition enabled (w : World) (e : Popup.Event) : bool :=
  match e with
  | MaterialClick v => clickable materialOptions (materials w) v
  | PreferenceClick v => clickable preferenceOptions (preferences w) v
  | ContactChange _ | NextClick => true
  end.

(** A run of events each of which the pop-up offers in the state it has
    then; [None] when one of them is not offered. *)
Fixpoint runUI (onNext : bool) (w : World) (es : list Popup.Event)
    : option (World * list Payload) :=
  match es with
  | [] => Some (w, [])
  | e :: es' =>
      if enabled w e then
        '(w1, c1) ← Popup.step onNext w e;
        '(w2, c2) ← runUI onNext w1 es';
        Some (w2, c1 ++ c2)
      else None
  end.

Definition isNextClick (e : Popup.Event) : bool :=
  match e with NextClick => true | _ => false end.

(** What the pop-up shows of the error: the message under the input, when
    there is one, and the colour of the border of the input. *)
Definition errorBox (st : State) : option JSString :=
  if truthy (error st) then Some (error st) else None.

Definition inputBorder (st : State) : JSString :=
  if truthy (error st) then str "1px solid red" else str "1px solid #ccc".

(** Both selections hold values of their options only, each once. *)
Definition offeredOnly (w : World) : Prop :=
  ∃ ms ps,
    materials w = Some ms ∧ NoDup ms ∧ (∀ v, v ∈ ms → v ∈ map value materialOptions)
    ∧ preferences w = Some ps ∧ NoDup ps
    ∧ (∀ v, v ∈ ps → v ∈ map value preferenceOptions).

(** A payload as [onNext] may rely on it in the store [h]: a trimmed contact
    info that passes the validation, and two arrays without duplicates. *)
Definition sound (h : Heap) (p : Payload) : Prop :=
  validateContactInfo (p_contactInfo p) = true
  ∧ trim (p_contactInfo p) = p_contactInfo p
  ∧ ∃ ms ps, h !! p_selectedMaterials p = Some ms ∧ NoDup ms
             ∧ h !! p_selectedPreferences p = Some ps ∧ NoDup ps.

End Session.

(** * Properties *)

Example validate_email : validateContactInfo (str "user@example.com") = true.
Proof. reflexivity. Qed.
Example validate_email_upper : validateContactInfo (str " User@Example.COM ") = true.
Proof. reflexivity. Qed.
Example validate_phone : validateContactInfo (str "+1 (555) 123-4567") = true.
Proof. reflexivity. Qed.
Example validate_text : validateContactInfo (str "not-an-email") = false.
Proof. reflexivity. Qed.
Example validate_short : validateContactInfo (str "123456") = false.
Proof. reflexivity. Qed.
Example validate_tld : validateContactInfo (str "a@b.c") = false.
Proof. reflexivity. Qed.

(** ** trim *)

Section Trim.

Lemma trimStart_idem s : trimStart (trimStart s) = trimStart s.
Proof.
  induction s as [|c s IH]; simpl; [done|].
  destruct (isWhiteSpace c) eqn:Hc; [done|]. simpl. by rewrite Hc.
Qed.

Lemma trimStart_snoc l c :
  isWhiteSpace c = false → trimStart (l ++ [c]) = trimStart l ++ [c].
Proof.
  intros Hc. induction l as [|x l IH]; simpl.
  - by rewrite Hc.
  - destruct (isWhiteSpace x); [exact IH | done].
Qed.

Lemma trimEnd_cons c r :
  isWhiteSpace c = false → trimEnd (c :: r) = c :: trimEnd r.
Proof.
  intros Hc. unfold trimEnd. simpl.
  rewrite trimStart_snoc by done. by rewrite rev_app_distr.
Qed.

Lemma trimEnd_idem s : trimEnd (trimEnd s) = trimEnd s.
Proof. unfold trimEnd. by rewrite rev_involutive, trimStart_idem. Qed.

Lemma trimStart_head s :
  trimStart s = [] ∨ ∃ c r, trimStart s = c :: r ∧ isWhiteSpace c = false.
Proof.
  induction s as [|c s IH]; simpl; [by left|].
  destruct (isWhiteSpace c) eqn:Hc; [exact IH|]. right. eauto.
Qed.

(** Trimming a trimmed string changes nothing. *)
Lemma trim_idem s : trim (trim s) = trim s.
Proof.
  unfold trim. destruct (trimStart_head s) as [-> | (c & r & -> & Hc)]; [done|].
  rewrite trimEnd_cons by done. simpl. rewrite Hc.
  rewrite trimEnd_cons by done. by rewrite trimEnd_idem.
Qed.

End Trim.

(** ** The matcher *)

Section Matcher.

(** A quantified one-unit atom matches exactly when the input splits into a
    run of units of the atom, of a length within the bounds, and a rest the
    continuation accepts. *)
Lemma repeatMatcher_spec m k s : ∀ min max b,
  repeatMatcher m min max k b s = true ↔
  ∃ a r, s = a ++ r ∧ forallb m a = true ∧ (min ≤ length a)%nat
         ∧ within max (length a) ∧ k (b && noneTaken a) r = true.
Proof.
  induction s as [|c s IH]; intros min max b.
  - assert (repeatMatcher m min max k b [] =
            match min with O => k b [] | S _ => false end) as ->
      by (by destruct max as [[|?]|]).
    split.
    + intros H. exists [], []. destruct min; [|done].
      rewrite andb_true_r. repeat split; simpl; try done.
      destruct max; simpl; [lia | done].
    + intros (a & r & Hs & _ & Hmin & _ & Hk).
      symmetry in Hs. apply app_eq_nil in Hs as [-> ->].
      simpl in *. destruct min; [|lia]. by rewrite andb_true_r in Hk.
  - split.
    + intros H.
      assert (match min with O => k b (c :: s) | S _ => false end = true
              → ∃ a r, c :: s = a ++ r ∧ forallb m a = true ∧ (min ≤ length a)%nat
                       ∧ within max (length a) ∧ k (b && noneTaken a) r = true) as Hstop.
      { intros Hk. exists [], (c :: s). destruct min; [|done].
        rewrite andb_true_r. repeat split; simpl; try done.
        destruct max; simpl; [lia | done]. }
      simpl in H. destruct max as [[|M]|]; [by apply Hstop | |].
      * destruct (m c) eqn:Hc; [|by apply Hstop].
        apply orb_true_iff in H as [H | H]; [|by apply Hstop].
        apply IH in H as (a & r & -> & Ha & Hmin & Hmax & Hk).
        exists (c :: a), r. simpl in *. rewrite Hc, andb_false_r.
        repeat split; try done; lia.
      * destruct (m c) eqn:Hc; [|by apply Hstop].
        apply orb_true_iff in H as [H | H]; [|by apply Hstop].
        apply IH in H as (a & r & -> & Ha & Hmin & Hmax & Hk).
        exists (c :: a), r. simpl in *. rewrite Hc, andb_false_r.
        repeat split; try done; lia.
    + intros (a & r & Hs & Ha & Hmin & Hmax & Hk). destruct a as [|x a].
      * simpl in *. subst r. destruct min; [|lia]. rewrite andb_true_r in Hk.
        rewrite Hk. destruct max as [[|M]|]; [done| |];
          destruct (m c); by rewrite ?orb_true_r.
      * simpl in *. injection Hs as <- ->.
        apply andb_true_iff in Ha as [Hc Ha]. rewrite Hc.
        assert (repeatMatcher m (Nat.pred min) (decr max) k false (a ++ r) = true) as Hrec.
        { apply IH. exists a, r. rewrite andb_false_r in Hk.
          repeat split; try done; [lia|].
          destruct max as [M|]; simpl in *; [lia | done]. }
        destruct max as [[|M]|]; simpl in *; [lia | |]; by rewrite Hrec.
Qed.

(** An anchored pattern matches at index 0 or nowhere. *)
Lemma execFrom_anchored p ts s :
  terms p = AssertStart :: ts → execFrom p false s = false.
Proof.
  intros Hp. induction s as [|c s IH]; simpl; rewrite Hp; simpl; [done | exact IH].
Qed.

Lemma test_anchored p ts s :
  terms p = AssertStart :: ts →
  test p s = matchTerms (ignoreCase p) ts true s.
Proof.
  intros Hp. unfold test. destruct s as [|c s]; simpl; rewrite Hp; simpl.
  - by rewrite orb_false_r.
  - by rewrite (execFrom_anchored p ts s Hp), orb_false_r.
Qed.

Lemma forallb_pointwise (f g : N → bool) l :
  (∀ c, f c = g c) → forallb f l = forallb g l.
Proof. intros E. induction l as [|x l IH]; simpl; [done|]. by rewrite E, IH. Qed.

End Matcher.

Section Classes.

Lemma false_is_true : false = true ↔ False.
Proof. split; [discriminate | tauto]. Qed.

Lemma true_is_true : true = true ↔ True.
Proof. tauto. Qed.

Ltac units :=
  repeat match goal with
         | |- context [ch ?a] => let v := eval vm_compute in (ch a) in change (ch a) with v
         end.

Ltac bools :=
  rewrite ?orb_true_iff, ?orb_false_iff, ?andb_true_iff, ?andb_false_iff,
    ?N.leb_le, ?N.leb_gt, ?N.eqb_eq, ?N.eqb_neq, ?false_is_true, ?true_is_true in *.

(** Two sets of code units are the same: the comparisons are turned into
    linear arithmetic. *)
Ltac class_eq :=
  intros;
  cbv [charSetMatcher atomSet classMember existsb canonicalize lowerOf
       Spec.isLocalChar Spec.isDomainChar Spec.isLetter Spec.isPhoneChar_whitespace
       isWordChar];
  units;
  repeat match goal with
         | |- context [if ?b then _ else _] => destruct b eqn:?
         end;
  cbv [isLower isUpper isDigit inRange] in *;
  apply eq_true_iff_eq; bools; first [lia | tauto].

Lemma local_class c :
  charSetMatcher true
    (atomSet (CharClass [ClassWord; ClassChar (ch "-"); ClassChar (ch ".")])) c
  = Spec.isLocalChar c.
Proof. class_eq. Qed.

Lemma domain_class c :
  charSetMatcher true (atomSet (CharClass [ClassWord; ClassChar (ch "-")])) c
  = Spec.isDomainChar c.
Proof. class_eq. Qed.

Lemma tld_class c :
  charSetMatcher true (atomSet (CharClass [ClassRange (ch "a") (ch "z")])) c
  = Spec.isLetter c.
Proof. class_eq. Qed.

(** With the [i] flag a character that is no letter still matches itself
    only. *)
Lemma literal_ignoreCase c x :
  isLower x = false → isUpper x = false →
  charSetMatcher true (atomSet (PatternChar x)) c = (c =? x).
Proof. class_eq. Qed.

Lemma phone_class c :
  charSetMatcher false
    (atomSet (CharClass [ClassDigit; ClassSpace; ClassChar (ch "-");
                         ClassChar (ch "("); ClassChar (ch ")"); ClassChar (ch ".")])) c
  = Spec.isPhoneChar_whitespace c.
Proof. class_eq. Qed.

End Classes.

(** ** The two patterns *)

Section Patterns.

Lemma forallb_one (x : N) a :
  forallb (λ c, c =? x) a = true → (1 ≤ length a)%nat → (length a ≤ 1)%nat → a = [x].
Proof.
  destruct a as [|c [|c' a]]; simpl; intros H ? ?; try lia.
  rewrite andb_true_r in H. apply N.eqb_eq in H. by subst.
Qed.

(** [emailRegex] accepts the strings of the shape local@domain.tld. *)
Lemma test_emailRegex s : test emailRegex s = true ↔ Spec.email_pattern s.
Proof.
  rewrite (test_anchored emailRegex _ s eq_refl). cbn [ignoreCase emailRegex].
  split.
  - intros H. cbn [matchTerms] in H.
    apply repeatMatcher_spec in H as (l & r1 & -> & Hl & Hlmin & _ & H).
    apply repeatMatcher_spec in H as (a & r2 & -> & Ha & Hamin & Hamax & H).
    apply repeatMatcher_spec in H as (d & r3 & -> & Hd & Hdmin & _ & H).
    apply repeatMatcher_spec in H as (p & r4 & -> & Hp & Hpmin & Hpmax & H).
    apply repeatMatcher_spec in H as (t & r5 & -> & Ht & Htmin & _ & H).
    destruct r5; [|done].
    rewrite (forallb_pointwise _ _ _ local_class) in Hl.
    rewrite (forallb_pointwise _ _ _ domain_class) in Hd.
    rewrite (forallb_pointwise _ _ _ tld_class) in Ht.
    rewrite (forallb_pointwise _ (λ c, c =? ch "@") _) in Ha
      by (intros; by apply literal_ignoreCase).
    rewrite (forallb_pointwise _ (λ c, c =? ch ".") _) in Hp
      by (intros; by apply literal_ignoreCase).
    apply forallb_one in Ha as ->; [|done..].
    apply forallb_one in Hp as ->; [|done..].
    exists l, d, t. by rewrite app_nil_r.
  - intros (l & d & t & -> & Hlmin & Hl & Hdmin & Hd & Htmin & Ht).
    cbn [matchTerms].
    apply repeatMatcher_spec. exists l, ([ch "@"] ++ d ++ [ch "."] ++ t).
    rewrite (forallb_pointwise _ _ _ local_class).
    repeat split; [done..|].
    apply repeatMatcher_spec. exists [ch "@"], (d ++ [ch "."] ++ t).
    repeat split; [simpl; lia..|].
    apply repeatMatcher_spec. exists d, ([ch "."] ++ t).
    rewrite (forallb_pointwise _ _ _ domain_class).
    repeat split; [done..|].
    apply repeatMatcher_spec. exists [ch "."], t.
    repeat split; [simpl; lia..|].
    apply repeatMatcher_spec. exists t, [].
    rewrite (forallb_pointwise _ _ _ tld_class), app_nil_r.
    by repeat split.
Qed.

(** [phoneRegex] accepts an optional [+] followed by 7 to 20 digits, white
    space characters, hyphens, parentheses and dots. *)
Lemma test_phoneRegex s :
  test phoneRegex s = true ↔ Spec.phone_pattern Spec.isPhoneChar_whitespace s.
Proof.
  rewrite (test_anchored phoneRegex _ s eq_refl). cbn [ignoreCase phoneRegex].
  split.
  - intros H. cbn [matchTerms] in H.
    apply repeatMatcher_spec in H as (a & r1 & -> & Ha & _ & Hamax & H).
    apply repeatMatcher_spec in H as (b & r2 & -> & Hb & Hbmin & Hbmax & H).
    destruct r2; [|done].
    rewrite (forallb_pointwise _ _ _ phone_class) in Hb.
    exists a, b. rewrite app_nil_r. repeat split; try done.
    destruct a as [|c [|c' a]]; simpl in *; [by left | right | lia].
    rewrite andb_true_r in Ha. apply N.eqb_eq in Ha. by subst.
  - intros (a & b & -> & Ha & Hbmin & Hbmax & Hb).
    cbn [matchTerms].
    apply repeatMatcher_spec. exists a, b.
    repeat split; try (destruct Ha as [-> | ->]; simpl; done || lia).
    apply repeatMatcher_spec. exists b, [].
    rewrite (forallb_pointwise _ _ _ phone_class), app_nil_r.
    repeat split; try done.
Qed.

End Patterns.

(** ** validateContactInfo *)

Section Validation.

Lemma validateContactInfo_trim s :
  validateContactInfo (trim s) = validateContactInfo s.
Proof. unfold validateContactInfo. by rewrite trim_idem. Qed.

Lemma email_pattern_has_at s : Spec.email_pattern s → ch "@" ∈ s.
Proof.
  intros (l & d & t & -> & _).
  apply elem_of_app. right. apply elem_of_cons. by left.
Qed.

Lemma email_pattern_nonempty s : Spec.email_pattern s → s ≠ [].
Proof. intros H%email_pattern_has_at ->. by apply not_elem_of_nil in H. Qed.

Lemma phone_pattern_nonempty body s : Spec.phone_pattern body s → s ≠ [].
Proof.
  intros (a & b & -> & _ & Hmin & _) E. apply app_eq_nil in E as [_ ->].
  simpl in Hmin. lia.
Qed.

(** What passes the validation is not empty once trimmed. *)
Lemma validateContactInfo_nonempty s :
  validateContactInfo s = true → truthy (trim s) = true.
Proof.
  unfold validateContactInfo. intros [H | H]%orb_true_iff.
  - apply test_emailRegex, email_pattern_nonempty in H. by destruct (trim s).
  - apply test_phoneRegex, phone_pattern_nonempty in H. by destruct (trim s).
Qed.

End Validation.

(** C1, as amended: for every string S, [validateContactInfo] returns true
    if and only if the trimmed S matches the email pattern (one or more word
    characters, hyphens or dots, then [@], then one or more word characters or
    hyphens, then a dot, then two or more letters of either case) or the phone
    pattern (an optional leading [+], then 7 to 20 characters drawn from
    digits, white space characters, hyphen, parentheses and dot). *)
Theorem validateContactInfo_iff_patterns (S : JSString) :
  validateContactInfo S = true ↔
  Spec.email_pattern (trim S)
  ∨ Spec.phone_pattern Spec.isPhoneChar_whitespace (trim S).
Proof.
  unfold validateContactInfo.
  by rewrite orb_true_iff, test_emailRegex, test_phoneRegex.
Qed.

(** C1, as worded, fails: with a tab between the digits the phone pattern of
    the code matches, while the string is not made of digits, spaces,
    hyphens, parentheses and dots, and is no email address either. *)
Lemma validateContactInfo_tab_counterexample :
  ¬ (validateContactInfo (str "123" ++ [9] ++ str "4567") = true ↔
     Spec.email_pattern (trim (str "123" ++ [9] ++ str "4567"))
     ∨ Spec.phone_pattern Spec.isPhoneChar_space (trim (str "123" ++ [9] ++ str "4567"))).
Proof.
  intros [H _]. specialize (H eq_refl).
  change (trim (str "123" ++ [9] ++ str "4567")) with [49; 50; 51; 9; 52; 53; 54; 55] in H.
  destruct H as [H | (a & b & E & Ha & _ & _ & Hb)].
  - apply email_pattern_has_at in H. revert H.
    apply (bool_decide_eq_false_1 _). reflexivity.
  - destruct Ha as [-> | ->]; simpl in E.
    + subst b. discriminate Hb.
    + discriminate E.
Qed.

(** C10: a string without any digit passes the validation: seven hyphens, or
    seven dots, match the phone pattern, whose class asks for no digit. *)
Theorem validateContactInfo_accepts_digitless :
  (∃ s, forallb (λ c, negb (isDigit c)) s = true ∧ validateContactInfo s = true)
  ∧ forallb (λ c, negb (isDigit c)) (str "-------") = true
  ∧ test phoneRegex (trim (str "-------")) = true
  ∧ validateContactInfo (str "-------") = true
  ∧ forallb (λ c, negb (isDigit c)) (str ".......") = true
  ∧ test phoneRegex (trim (str ".......")) = true
  ∧ validateContactInfo (str ".......") = true.
Proof.
  split; [exists (str "-------"); by split|]. by repeat split.
Qed.

(** ** handleNextClick *)

Section Submit.

Import Popup.

Lemma handleNextClick_required onNext st :
  trim (contactInfo st) = [] →
  handleNextClick onNext st = (setError st (str "Contact info is required."), []).
Proof. intros E. unfold handleNextClick. by rewrite E. Qed.

Lemma handleNextClick_invalid onNext st :
  trim (contactInfo st) ≠ [] →
  validateContactInfo (contactInfo st) = false →
  handleNextClick onNext st =
    (setError st (str "Please enter a valid phone number or email address."), []).
Proof.
  intros Hne Hv. unfold handleNextClick.
  rewrite validateContactInfo_trim, Hv. by destruct (trim (contactInfo st)).
Qed.

Lemma handleNextClick_accepts onNext st :
  validateContactInfo (contactInfo st) = true →
  handleNextClick onNext st =
    (setError st [],
     if onNext
     then [ {| p_contactInfo := trim (contactInfo st);
               p_selectedMaterials := selectedMaterials st;
               p_selectedPreferences := selectedPreferences st |} ]
     else []).
Proof.
  intros Hv. unfold handleNextClick.
  by rewrite validateContactInfo_trim, Hv, (validateContactInfo_nonempty _ Hv).
Qed.

(** Without an [onNext] prop nothing is called, whatever the input. *)
Lemma handleNextClick_no_callback st : (handleNextClick false st).2 = [].
Proof.
  unfold handleNextClick.
  destruct (negb (truthy _)); [done|]. by destruct (negb (validateContactInfo _)).
Qed.

End Submit.

(** C2: when the contact info passes the validation, a click on Next calls
    [onNext] exactly once, with the trimmed contact info and the two
    selections of the state as they are, and clears the error; the store and
    the rest of the state are as before. *)
Theorem next_click_valid_calls_onNext (w : Popup.World) :
  validateContactInfo (Popup.contactInfo (Popup.state w)) = true →
  ∃ w' p,
    Popup.step true w Popup.NextClick = Some (w', [p])
    ∧ Popup.p_contactInfo p = trim (Popup.contactInfo (Popup.state w))
    ∧ Popup.heap w' !! Popup.p_selectedMaterials p = Popup.materials w
    ∧ Popup.heap w' !! Popup.p_selectedPreferences p = Popup.preferences w
    ∧ Popup.error (Popup.state w') = []
    ∧ Popup.state w' = Popup.setError (Popup.state w) []
    ∧ Popup.heap w' = Popup.heap w.
Proof.
  intros Hv. unfold Popup.step.
  rewrite (handleNextClick_accepts true _ Hv). eexists _, _. by repeat split.
Qed.

(** C2 at "user@example.com" with nothing selected: the submission succeeds
    and [onNext] receives two empty arrays. *)
Lemma next_click_valid_witness :
  let w := {| Popup.heap := Popup.heap Popup.mount;
              Popup.state := Popup.setContactInfo (Popup.state Popup.mount)
                               (str "user@example.com") |} in
  validateContactInfo (Popup.contactInfo (Popup.state w)) = true
  ∧ Popup.materials w = Some [] ∧ Popup.preferences w = Some []
  ∧ ∃ w' p,
      Popup.step true w Popup.NextClick = Some (w', [p])
      ∧ Popup.p_contactInfo p = str "user@example.com"
      ∧ Popup.heap w' !! Popup.p_selectedMaterials p = Some []
      ∧ Popup.heap w' !! Popup.p_selectedPreferences p = Some []
      ∧ Popup.error (Popup.state w') = [].
Proof.
  intros w. split; [reflexivity|]. split; [done|]. split; [done|].
  destruct (next_click_valid_calls_onNext w) as (w' & p & H1 & H2 & H3 & H4 & H5 & _);
    [reflexivity|].
  exists w', p. rewrite H3, H4. by repeat split.
Defined.

(** C3: when the contact info is empty once trimmed, a click on Next sets
    the error to "Contact info is required.", calls nothing, and leaves the
    contact info and the two selections as they are. *)
Theorem next_click_empty_contact (onNext : bool) (w : Popup.World) :
  trim (Popup.contactInfo (Popup.state w)) = [] →
  ∃ w',
    Popup.step onNext w Popup.NextClick = Some (w', [])
    ∧ Popup.error (Popup.state w') = str "Contact info is required."
    ∧ Popup.contactInfo (Popup.state w') = Popup.contactInfo (Popup.state w)
    ∧ Popup.selectedMaterials (Popup.state w') = Popup.selectedMaterials (Popup.state w)
    ∧ Popup.selectedPreferences (Popup.state w') = Popup.selectedPreferences (Popup.state w)
    ∧ Popup.heap w' = Popup.heap w
    ∧ Popup.materials w' = Popup.materials w
    ∧ Popup.preferences w' = Popup.preferences w.
Proof.
  intros E. unfold Popup.step.
  rewrite (handleNextClick_required onNext _ E). eexists. by repeat split.
Qed.

(** C3 on a contact info of two spaces, a tab and a no-break space. *)
Lemma next_click_empty_contact_witness :
  let w := {| Popup.heap := [ [str "react"]; [] ];
              Popup.state := Popup.setContactInfo (Popup.state Popup.mount)
                               (str "  " ++ [9; 160]) |} in
  trim (Popup.contactInfo (Popup.state w)) = []
  ∧ ∃ w',
      Popup.step true w Popup.NextClick = Some (w', [])
      ∧ Popup.error (Popup.state w') = str "Contact info is required."
      ∧ Popup.materials w' = Some [str "react"].
Proof.
  intros w. split; [reflexivity|].
  destruct (next_click_empty_contact true w) as (w' & H1 & H2 & _ & _ & _ & _ & H3 & _);
    [reflexivity|].
  exists w'. by rewrite H3.
Defined.

(** C4, as amended: when the trimmed contact info is not empty and matches
    neither the email pattern nor the phone pattern (an optional leading [+],
    then 7 to 20 characters drawn from digits, white space characters, hyphen,
    parentheses and dot), a click on Next sets the error to "Please enter a
    valid phone number or email address." and calls nothing. *)
Theorem next_click_invalid_format (onNext : bool) (w : Popup.World) :
  trim (Popup.contactInfo (Popup.state w)) ≠ [] →
  ¬ Spec.email_pattern (trim (Popup.contactInfo (Popup.state w))) →
  ¬ Spec.phone_pattern Spec.isPhoneChar_whitespace
      (trim (Popup.contactInfo (Popup.state w))) →
  ∃ w',
    Popup.step onNext w Popup.NextClick = Some (w', [])
    ∧ Popup.error (Popup.state w')
      = str "Please enter a valid phone number or email address."
    ∧ Popup.contactInfo (Popup.state w') = Popup.contactInfo (Popup.state w)
    ∧ Popup.heap w' = Popup.heap w.
Proof.
  intros Hne He Hp. unfold Popup.step.
  rewrite (handleNextClick_invalid onNext _ Hne); [eexists; by repeat split|].
  apply not_true_iff_false. unfold validateContactInfo.
  intros [H | H]%orb_true_iff.
  - by apply He, test_emailRegex.
  - by apply Hp, test_phoneRegex.
Qed.

(** C4 at "not-an-email". *)
Lemma next_click_invalid_format_witness :
  let w := {| Popup.heap := Popup.heap Popup.mount;
              Popup.state := Popup.setContactInfo (Popup.state Popup.mount)
                               (str "not-an-email") |} in
  trim (Popup.contactInfo (Popup.state w)) ≠ []
  ∧ ¬ Spec.email_pattern (trim (Popup.contactInfo (Popup.state w)))
  ∧ ¬ Spec.phone_pattern Spec.isPhoneChar_whitespace
        (trim (Popup.contactInfo (Popup.state w)))
  ∧ ∃ w',
      Popup.step true w Popup.NextClick = Some (w', [])
      ∧ Popup.error (Popup.state w')
        = str "Please enter a valid phone number or email address.".
Proof.
  intros w.
  assert (¬ Spec.email_pattern (trim (Popup.contactInfo (Popup.state w)))) as He
    by (intros H%test_emailRegex; discriminate H).
  assert (¬ Spec.phone_pattern Spec.isPhoneChar_whitespace
              (trim (Popup.contactInfo (Popup.state w)))) as Hp
    by (intros H%test_phoneRegex; discriminate H).
  split; [discriminate|]. split; [exact He|]. split; [exact Hp|].
  destruct (next_click_invalid_format true w) as (w' & H1 & H2 & _);
    [discriminate | exact He | exact Hp |].
  by exists w'.
Defined.

Section TabbedNumber.

(** The digits 123, a tab, the digits 4567: no address, and no phone number
    of digits, spaces, hyphens, parentheses and dots. *)
Lemma tabbed_number_no_email :
  ¬ Spec.email_pattern (trim (str "123" ++ [9] ++ str "4567")).
Proof.
  intros H%email_pattern_has_at. revert H.
  apply (bool_decide_eq_false_1 _). reflexivity.
Qed.

Lemma tabbed_number_no_spaced_phone :
  ¬ Spec.phone_pattern Spec.isPhoneChar_space (trim (str "123" ++ [9] ++ str "4567")).
Proof.
  change (trim (str "123" ++ [9] ++ str "4567")) with [49; 50; 51; 9; 52; 53; 54; 55].
  intros (a & b & E & Ha & _ & _ & Hb).
  destruct Ha as [-> | ->]; simpl in E.
  - subst b. discriminate Hb.
  - discriminate E.
Qed.

End TabbedNumber.

(** C4, as worded, fails: "123", a tab, "4567" is not empty once trimmed and
    matches neither the email pattern nor the phone pattern of digits, spaces,
    hyphens, parentheses and dots, yet the click on Next calls [onNext] and
    sets no error. *)
Lemma next_click_invalid_format_tab_counterexample :
  let w := {| Popup.heap := Popup.heap Popup.mount;
              Popup.state := Popup.setContactInfo (Popup.state Popup.mount)
                               (str "123" ++ [9] ++ str "4567") |} in
  trim (Popup.contactInfo (Popup.state w)) ≠ []
  ∧ ¬ Spec.email_pattern (trim (Popup.contactInfo (Popup.state w)))
  ∧ ¬ Spec.phone_pattern Spec.isPhoneChar_space
        (trim (Popup.contactInfo (Popup.state w)))
  ∧ (∃ w' p, Popup.step true w Popup.NextClick = Some (w', [p])
             ∧ Popup.error (Popup.state w') = [])
  ∧ ¬ ∃ w', Popup.step true w Popup.NextClick = Some (w', [])
            ∧ Popup.error (Popup.state w')
              = str "Please enter a valid phone number or email address.".
Proof.
  intros w. split; [discriminate|].
  split; [exact tabbed_number_no_email|].
  split; [exact tabbed_number_no_spaced_phone|].
  split; [by eexists _, _|].
  intros (w' & H & _). discriminate H.
Qed.

(** ** The store *)

Section StoreFacts.

Lemma alloc_lookup_new (h : Heap) a : (alloc h a).1 !! (alloc h a).2 = Some a.
Proof. unfold alloc. simpl. by apply list_lookup_middle. Qed.

Lemma alloc_lookup_old (h : Heap) a q x :
  h !! q = Some x → (alloc h a).1 !! q = Some x.
Proof. intros H. unfold alloc. simpl. by apply lookup_app_l_Some. Qed.

Lemma alloc_fresh (h : Heap) a q x : h !! q = Some x → (alloc h a).2 ≠ q.
Proof. intros H%lookup_lt_Some. unfold alloc. simpl. lia. Qed.

End StoreFacts.

(** ** handleOptionClick *)

Section Toggle.

Import Dropdown.

Implicit Types (arr : list JSString) (v : JSString).

Lemma handleOptionClick_alloc (h : Heap) r arr v :
  h !! r = Some arr →
  handleOptionClick h r v = Some (alloc h (toggled arr v)).
Proof.
  intros H. unfold handleOptionClick, toggled. rewrite H. simpl.
  by destruct (includes arr v).
Qed.

Lemma includes_true arr v : includes arr v = true ↔ v ∈ arr.
Proof. unfold includes. apply bool_decide_eq_true. Qed.

Lemma includes_false arr v : includes arr v = false ↔ v ∉ arr.
Proof. unfold includes. apply bool_decide_eq_false. Qed.

Lemma toggled_absent arr v : v ∉ arr → toggled arr v = arr ++ [v].
Proof. intros H%includes_false. unfold toggled. by rewrite H. Qed.

Lemma toggled_member arr v : v ∈ arr → toggled arr v = filter (λ x, x ≠ v) arr.
Proof. intros H%includes_true. unfold toggled. by rewrite H. Qed.

(** Filtering [v] out of an array without [v] keeps the array. *)
Lemma filter_ne_absent arr v : v ∉ arr → filter (λ x, x ≠ v) arr = arr.
Proof.
  induction arr as [|x arr IH]; intros H; [done|].
  apply not_elem_of_cons in H as [Hx Harr].
  rewrite filter_cons_True by done. by rewrite IH.
Qed.

Lemma filter_ne_split l1 l2 v :
  v ∉ l1 → v ∉ l2 → filter (λ x, x ≠ v) (l1 ++ v :: l2) = l1 ++ l2.
Proof.
  intros H1 H2. rewrite filter_app, filter_cons_False by (by intros ?).
  by rewrite !filter_ne_absent.
Qed.

(** On a duplicate-free array a present value is taken out at its one
    place. *)
Lemma toggled_present arr v :
  NoDup arr → v ∈ arr →
  ∃ l1 l2, arr = l1 ++ v :: l2 ∧ toggled arr v = l1 ++ l2 ∧ v ∉ l1 ++ l2.
Proof.
  intros Hnd Hin. rewrite (toggled_member _ _ Hin).
  destruct (list_elem_of_split _ _ Hin) as (l1 & l2 & ->).
  apply NoDup_app in Hnd as (_ & H1 & [H2 _]%NoDup_cons).
  assert (v ∉ l1) as Hl1.
  { intros Hv. apply (H1 _ Hv). by left. }
  exists l1, l2. rewrite filter_ne_split by done.
  split; [done|]. split; [done|]. rewrite elem_of_app. tauto.
Qed.

Lemma toggled_NoDup arr v : NoDup arr → NoDup (toggled arr v).
Proof.
  intros Hnd. destruct (decide (v ∈ arr)) as [Hin | Hin].
  - rewrite (toggled_member _ _ Hin). by apply NoDup_filter.
  - rewrite (toggled_absent _ _ Hin). apply NoDup_app. repeat split; [done| |].
    + intros x Hx ->%list_elem_of_singleton. done.
    + apply NoDup_singleton.
Qed.

(** Two toggles of an absent value give the array back. *)
Lemma toggled_twice_absent arr v : v ∉ arr → toggled (toggled arr v) v = arr.
Proof.
  intros Hin. rewrite (toggled_absent _ _ Hin).
  rewrite toggled_member by (apply elem_of_app; right; by left).
  rewrite filter_app, filter_ne_absent by done.
  by rewrite filter_cons_False, filter_nil, app_nil_r by (by intros ?).
Qed.

(** Two toggles of a present value move it to the end. *)
Lemma toggled_twice_present arr v :
  v ∈ arr → toggled (toggled arr v) v = filter (λ x, x ≠ v) arr ++ [v].
Proof.
  intros Hin. rewrite (toggled_member _ _ Hin). apply toggled_absent.
  rewrite list_elem_of_filter. tauto.
Qed.

End Toggle.

(** C5: on a duplicate-free selection, [handleOptionClick] allocates a new
    array and hands it to the setter, every array of the store (the selection
    it read too) being left as it was; the new array is the selection without
    the one occurrence of V, the others in their order, when V is present,
    and the selection with V appended when V is absent. *)
Theorem handleOptionClick_toggles
    (h : Heap) (r : Ref) (sel : list JSString) (V : JSString) :
  h !! r = Some sel → NoDup sel →
  ∃ h' r' new,
    Dropdown.handleOptionClick h r V = Some (h', r')
    ∧ h' !! r' = Some new
    ∧ r' ≠ r
    ∧ (∀ q a, h !! q = Some a → h' !! q = Some a)
    ∧ (V ∈ sel → ∃ l1 l2, sel = l1 ++ V :: l2 ∧ new = l1 ++ l2 ∧ V ∉ new)
    ∧ (V ∉ sel → new = sel ++ [V]).
Proof.
  intros Hr Hnd. rewrite (handleOptionClick_alloc _ _ _ _ Hr).
  exists (alloc h (Dropdown.toggled sel V)).1, (alloc h (Dropdown.toggled sel V)).2,
    (Dropdown.toggled sel V).
  split; [done|]. split; [apply alloc_lookup_new|].
  split; [by apply (alloc_fresh _ _ _ _ Hr)|].
  split; [intros q a; apply alloc_lookup_old|].
  split.
  - intros Hin. destruct (toggled_present _ _ Hnd Hin) as (l1 & l2 & E1 & E2 & E3).
    exists l1, l2. by rewrite E2.
  - apply toggled_absent.
Qed.

Lemma handleOptionClick_toggles_witness :
  let h : Heap := [ [str "javascript"; str "react"] ] in
  h !! 0%nat = Some [str "javascript"; str "react"]
  ∧ NoDup [str "javascript"; str "react"]
  ∧ ∃ h' r' new,
      Dropdown.handleOptionClick h 0%nat (str "javascript") = Some (h', r')
      ∧ h' !! r' = Some new
      ∧ h' !! 0%nat = Some [str "javascript"; str "react"]
      ∧ new = [str "react"].
Proof.
  intros h.
  assert (NoDup [str "javascript"; str "react"]) as Hnd
    by (apply (bool_decide_unpack _); reflexivity).
  split; [done|]. split; [done|].
  destruct (handleOptionClick_toggles h 0%nat _ (str "javascript") eq_refl Hnd)
    as (h' & r' & new & H1 & H2 & _ & H3 & H4 & _).
  exists h', r', new. split; [done|]. split; [done|]. split; [by apply H3|].
  destruct H4 as (l1 & l2 & E & -> & _); [by left|].
  destruct l1 as [|x l1]; simpl in E.
  - by injection E as <-.
  - injection E as <- E. destruct l1 as [|y l1]; simpl in E; [discriminate E|].
    injection E as _ E. by destruct l1.
Defined.

(** C6, as amended: on a duplicate-free selection, two toggles of V in a row
    give a selection with the elements of the first one; it is the first one,
    order included, when V was absent or was its last element, and otherwise
    V has moved to the end, the other values keeping their order. *)
Theorem toggle_twice
    (h : Heap) (r : Ref) (sel : list JSString) (V : JSString) :
  h !! r = Some sel → NoDup sel →
  ∃ h1 r1 h2 r2 sel2,
    Dropdown.handleOptionClick h r V = Some (h1, r1)
    ∧ Dropdown.handleOptionClick h1 r1 V = Some (h2, r2)
    ∧ h2 !! r2 = Some sel2
    ∧ sel2 ≡ₚ sel
    ∧ (V ∉ sel → sel2 = sel)
    ∧ (∀ l, sel = l ++ [V] → sel2 = sel)
    ∧ (V ∈ sel → sel2 = filter (λ x, x ≠ V) sel ++ [V]).
Proof.
  intros Hr Hnd. rewrite (handleOptionClick_alloc _ _ _ _ Hr).
  set (s1 := Dropdown.toggled sel V).
  exists (alloc h s1).1, (alloc h s1).2.
  rewrite (handleOptionClick_alloc _ _ s1 _ (alloc_lookup_new h s1)).
  set (s2 := Dropdown.toggled s1 V).
  exists (alloc (alloc h s1).1 s2).1, (alloc (alloc h s1).1 s2).2, s2.
  split; [by destruct (alloc h s1)|]. split; [done|].
  split; [apply alloc_lookup_new|].
  assert (V ∈ sel → s2 = filter (λ x, x ≠ V) sel ++ [V]) as Hin
    by apply toggled_twice_present.
  assert (V ∉ sel → s2 = sel) as Hout by apply toggled_twice_absent.
  split; [|split; [done|split; [|done]]].
  - destruct (decide (V ∈ sel)) as [HV | HV]; [|by rewrite Hout].
    rewrite (Hin HV).
    destruct (toggled_present _ _ Hnd HV) as (l1 & l2 & E1 & E2 & _).
    rewrite <- (toggled_member _ _ HV), E2, E1.
    rewrite <- Permutation_cons_append. apply Permutation_middle.
  - intros l E. rewrite Hin by (rewrite E, elem_of_app; right; by left).
    rewrite E in Hnd |- *. apply NoDup_app in Hnd as (_ & Hl & _).
    rewrite filter_app, filter_cons_False, filter_nil, app_nil_r by (by intros ?).
    rewrite filter_ne_absent; [done|]. intros HV. apply (Hl _ HV). by left.
Qed.

Lemma toggle_twice_witness :
  let h : Heap := [ [str "javascript"; str "react"] ] in
  h !! 0%nat = Some [str "javascript"; str "react"]
  ∧ NoDup [str "javascript"; str "react"]
  ∧ ∃ h1 r1 h2 r2 sel2,
      Dropdown.handleOptionClick h 0%nat (str "react") = Some (h1, r1)
      ∧ Dropdown.handleOptionClick h1 r1 (str "react") = Some (h2, r2)
      ∧ h2 !! r2 = Some sel2
      ∧ sel2 = [str "javascript"; str "react"].
Proof.
  intros h.
  assert (NoDup [str "javascript"; str "react"]) as Hnd
    by (apply (bool_decide_unpack _); reflexivity).
  split; [done|]. split; [done|].
  destruct (toggle_twice h 0%nat _ (str "react") eq_refl Hnd)
    as (h1 & r1 & h2 & r2 & sel2 & H1 & H2 & H3 & _ & _ & H4 & _).
  exists h1, r1, h2, r2, sel2. repeat split; try done.
  by apply (H4 [str "javascript"]).
Defined.

(** C6, as worded, fails: toggling "javascript" twice in the selection
    javascript, react gives react, javascript. *)
Lemma toggle_twice_order_counterexample :
  NoDup [str "javascript"; str "react"]
  ∧ ∃ h1 r1 h2 r2,
      Dropdown.handleOptionClick [ [str "javascript"; str "react"] ] 0%nat
        (str "javascript") = Some (h1, r1)
      ∧ Dropdown.handleOptionClick h1 r1 (str "javascript") = Some (h2, r2)
      ∧ h2 !! r2 = Some [str "react"; str "javascript"]
      ∧ [str "react"; str "javascript"] ≠ [str "javascript"; str "react"].
Proof.
  split; [apply (bool_decide_unpack _); reflexivity|].
  eexists _, _, _, _. split; [reflexivity|]. split; [reflexivity|].
  split; [reflexivity | discriminate].
Qed.

(** ** The selections of the pop-up *)

Section Selections.

Import Popup.

Lemma mount_duplicateFree : duplicateFree mount.
Proof. exists [], []. repeat split; apply NoDup_nil_2. Qed.

Lemma step_duplicateFree onNext w e :
  duplicateFree w →
  ∃ w' calls, step onNext w e = Some (w', calls) ∧ duplicateFree w'.
Proof.
  intros (ms & ps & Hm & Hnm & Hp & Hnp). destruct e as [c | v | v |]; simpl.
  - eexists _, _. split; [done|]. by exists ms, ps.
  - unfold materials in Hm. rewrite (handleOptionClick_alloc _ _ _ _ Hm). simpl.
    eexists _, _. split; [done|].
    exists (Dropdown.toggled ms v), ps. unfold materials, preferences. simpl.
    split; [by apply list_lookup_middle|]. split; [by apply toggled_NoDup|].
    split; [by apply lookup_app_l_Some | done].
  - unfold preferences in Hp. rewrite (handleOptionClick_alloc _ _ _ _ Hp). simpl.
    eexists _, _. split; [done|].
    exists ms, (Dropdown.toggled ps v). unfold materials, preferences. simpl.
    split; [by apply lookup_app_l_Some|]. split; [done|].
    split; [by apply list_lookup_middle | by apply toggled_NoDup].
  - destruct (handleNextClick onNext (state w)) as [st calls] eqn:E.
    eexists _, _. split; [done|]. exists ms, ps.
    assert (selectedMaterials st = selectedMaterials (state w)
            ∧ selectedPreferences st = selectedPreferences (state w)) as [E1 E2].
    { unfold handleNextClick in E.
      destruct (negb (truthy _)); [by injection E as <- _|].
      destruct (negb (validateContactInfo _)); by injection E as <- _. }
    unfold materials, preferences in *. simpl. by rewrite E1, E2.
Qed.

Lemma run_duplicateFree onNext es : ∀ w,
  duplicateFree w →
  ∃ w' calls, run onNext w es = Some (w', calls) ∧ duplicateFree w'.
Proof.
  induction es as [|e es IH]; intros w Hw; simpl.
  - by exists w, [].
  - destruct (step_duplicateFree onNext w e Hw) as (w1 & c1 & -> & Hw1). simpl.
    destruct (IH w1 Hw1) as (w2 & c2 & -> & Hw2). simpl.
    by eexists _, _.
Qed.

End Selections.

(** Selecting javascript then react, then removing javascript by its chip. *)
Example select_then_remove :
  (Popup.run true Popup.mount
     [Popup.MaterialClick (str "javascript"); Popup.MaterialClick (str "react")]
     ≫= λ r, Popup.materials r.1) = Some [str "javascript"; str "react"]
  ∧ (Popup.run true Popup.mount
       [Popup.MaterialClick (str "javascript"); Popup.MaterialClick (str "react");
        Popup.MaterialClick (str "javascript")]
       ≫= λ r, Popup.materials r.1) = Some [str "react"].
Proof. split; reflexivity. Qed.

(** C7: after any sequence of events since the mount (the toggles of both
    dropdowns, edits of the contact info and clicks on Next) the pop-up is in
    a state, and neither selection of that state holds a value twice. *)
Theorem selections_never_duplicate (onNext : bool) (es : list Popup.Event) :
  ∃ w calls ms ps,
    Popup.run onNext Popup.mount es = Some (w, calls)
    ∧ Popup.materials w = Some ms ∧ NoDup ms
    ∧ Popup.preferences w = Some ps ∧ NoDup ps.
Proof.
  destruct (run_duplicateFree onNext es _ mount_duplicateFree)
    as (w & calls & Hrun & ms & ps & H).
  by exists w, calls, ms, ps.
Qed.

(** ** The close timer *)

Section Timer.

Import Dropdown.

(** Leaving schedules one more close, 300 ms from now, and keeps its
    identifier. *)
Lemma handleMouseLeave_schedules w :
  pending (handleMouseLeave w) = pending w ++ [(nextId w, (now w + 300)%nat)]
  ∧ closeTimeoutRef (handleMouseLeave w) = Some (nextId w).
Proof. done. Qed.

(** Entering clears the timer the ref names, and no other. *)
Lemma handleMouseEnter_clears w id :
  closeTimeoutRef w = Some (S id) →
  pending (handleMouseEnter w) = filter (λ t, t.1 ≠ S id) (pending w)
  ∧ closeTimeoutRef (handleMouseEnter w) = None.
Proof. intros H. unfold handleMouseEnter. by rewrite H. Qed.

(** A leave on a widget with nothing pending, then an enter: nothing is
    pending. *)
Lemma leave_enter_nothing_pending w :
  pending w = [] → nextId w ≠ 0%nat →
  pending (run w [MouseLeave; MouseEnter]) = [].
Proof.
  intros Hp Hid. simpl. unfold handleMouseEnter, handleMouseLeave. simpl.
  destruct (nextId w) as [|n] eqn:E; [done|]. simpl. rewrite Hp. simpl.
  unfold clearTimeout. rewrite filter_cons_False; [done|]. simpl. by intros ?.
Qed.

(** After leave, leave, enter the close of the first leave is still
    pending: the second leave took its identifier out of the ref without
    clearing it. *)
Lemma leave_leave_enter_pending w :
  nextId w ≠ 0%nat →
  (nextId w, (now w + 300)%nat) ∈ pending (run w [MouseLeave; MouseLeave; MouseEnter]).
Proof.
  intros Hid. simpl. unfold handleMouseEnter. simpl. unfold clearTimeout.
  apply list_elem_of_filter. split; [simpl; lia|].
  simpl. rewrite !elem_of_app. left. right. by left.
Qed.

End Timer.

(** C8 on the code: an open dropdown gets leave, leave, enter.  The first
    close is still pending although the pointer is back inside, no ref names
    it any more, and 300 ms later it closes the dropdown. *)
Theorem leave_leave_enter_still_closes :
  let w := Dropdown.run (Dropdown.toggleDropdown Dropdown.mounted)
             [Dropdown.MouseLeave; Dropdown.MouseLeave; Dropdown.MouseEnter] in
  Dropdown.pending w = [(1%nat, 300%nat)]
  ∧ Dropdown.closeTimeoutRef w = None
  ∧ Dropdown.isOpen w = true
  ∧ Dropdown.isOpen (Dropdown.elapse 300 w) = false.
Proof. by repeat split. Qed.

(** ** The header *)

Section Header.

Import Dropdown.

Lemma findOption_None options v :
  findOption options v = None ↔ ∀ o, o ∈ options → value o ≠ v.
Proof.
  unfold findOption. induction options as [|o options IH]; simpl.
  - split; [intros _ o H; by apply elem_of_nil in H | done].
  - unfold strictEquals. destruct (decide (value o = v)) as [E | E].
    + rewrite bool_decide_eq_true_2 by done. split; [done|].
      intros H. exfalso. apply (H o); [by left | done].
    + rewrite bool_decide_eq_false_2 by done. rewrite IH. split.
      * intros H o' [-> | Ho']%elem_of_cons; [done | by apply H].
      * intros H o' Ho'. apply H. by right.
Qed.

Lemma findOption_first options v o :
  firstWithValue options v o → findOption options v = Some o.
Proof.
  intros (i & Hi & Hv & Hfirst). unfold findOption.
  revert i Hi Hfirst. induction options as [|x options IH]; intros i Hi Hfirst.
  - done.
  - simpl. unfold strictEquals. destruct i as [|i].
    + injection Hi as ->. by rewrite bool_decide_eq_true_2.
    + rewrite bool_decide_eq_false_2 by (apply (Hfirst 0%nat); [lia | done]).
      apply (IH i); [done|]. intros j o' Hj Ho'.
      apply (Hfirst (S j)); [lia | done].
Qed.

Lemma chipOf_resolved options v o :
  firstWithValue options v o → chipText (chipOf options v) = text o.
Proof. intros H. unfold chipOf. by rewrite (findOption_first _ _ _ H). Qed.

Lemma chipOf_fallback options v :
  (∀ o, o ∈ options → value o ≠ v) → chipText (chipOf options v) = v.
Proof. intros H%findOption_None. unfold chipOf. by rewrite H. Qed.

End Header.

(** C9, as amended: the header renders whenever the selection is not empty
    or there is an option.  With an empty selection it shows the text of the
    first option as a hint; otherwise it shows one chip per selected value,
    in the order of the selection, with the text of the first option of that
    value, or the value itself when no option has it. *)
Theorem renderHeader_closed_header
    (options : list Dropdown.OptionObj) (sel : list JSString) :
  (sel = [] → options ≠ []) →
  ∃ hd,
    Dropdown.renderHeader options sel = Dropdown.Returns hd
    ∧ (sel = [] → ∃ o, options !! 0%nat = Some o ∧ hd = Dropdown.Hint (Dropdown.text o))
    ∧ (sel ≠ [] →
       ∃ cs, hd = Dropdown.Chips cs ∧ length cs = length sel
         ∧ ∀ i v, sel !! i = Some v →
             ∃ c, cs !! i = Some c ∧ Dropdown.key c = v
               ∧ (∀ o, Dropdown.firstWithValue options v o →
                       Dropdown.chipText c = Dropdown.text o)
               ∧ ((∀ o, o ∈ options → Dropdown.value o ≠ v) →
                  Dropdown.chipText c = v)).
Proof.
  intros H. unfold Dropdown.renderHeader. destruct sel as [|v0 sel].
  - destruct options as [|o options]; [by destruct H|]. simpl.
    eexists. split; [done|]. split; [|done]. intros _. by exists o.
  - change (length (v0 :: sel) =? 0)%nat with false. cbv iota.
    eexists. split; [done|]. split; [done|]. intros _.
    eexists. split; [done|]. split; [by rewrite length_map|].
    intros i v Hi. exists (Dropdown.chipOf options v).
    split; [by rewrite list_lookup_fmap, Hi|]. split; [done|].
    split; [intros o; apply chipOf_resolved | apply chipOf_fallback].
Qed.

Lemma renderHeader_closed_header_witness :
  ([str "react"; str "python"] = [] → Popup.materialOptions ≠ [])
  ∧ ∃ c1 c2,
      Dropdown.renderHeader Popup.materialOptions [str "react"; str "python"]
      = Dropdown.Returns (Dropdown.Chips [c1; c2])
      ∧ Dropdown.chipText c1 = str "React"
      ∧ Dropdown.chipText c2 = str "python".
Proof.
  split; [discriminate|].
  destruct (renderHeader_closed_header Popup.materialOptions [str "react"; str "python"])
    as (hd & H1 & _ & H2); [discriminate|].
  destruct H2 as (cs & -> & _ & _); [discriminate|].
  injection H1 as <-. by eexists _, _.
Defined.

(** C9, as worded, fails on the empty option list: with nothing selected the
    header reads [options[0].text] and throws, it shows no hint. *)
Lemma renderHeader_no_option_counterexample :
  Dropdown.renderHeader [] [] = Dropdown.ThrowsTypeError
  ∧ ¬ ∃ hd, Dropdown.renderHeader [] [] = Dropdown.Returns hd.
Proof. split; [done|]. by intros [hd H]. Qed.

(** * Further properties *)

(** ** What the validation accepts *)

Section Acceptance.

Lemma trimStart_app s b :
  trimStart (s ++ b) = match trimStart s with [] => trimStart b | _ :: _ => trimStart s ++ b end.
Proof.
  induction s as [|c s IH]; simpl; [done|].
  destruct (isWhiteSpace c); [exact IH | done].
Qed.

Lemma trimStart_blank a : forallb isWhiteSpace a = true → trimStart a = [].
Proof.
  induction a as [|c a IH]; simpl; [done|].
  intros [-> Ha]%andb_true_iff. by apply IH.
Qed.

Lemma forallb_rev (f : N → bool) l : forallb f (rev l) = forallb f l.
Proof.
  induction l as [|x l IH]; simpl; [done|].
  rewrite forallb_app, IH. simpl. rewrite andb_true_r. apply andb_comm.
Qed.

Lemma trimEnd_app_blank s b : forallb isWhiteSpace b = true → trimEnd (s ++ b) = trimEnd s.
Proof.
  intros Hb. unfold trimEnd. rewrite rev_app_distr, trimStart_app.
  by rewrite trimStart_blank by (by rewrite forallb_rev).
Qed.

(** White space around a string is gone after [trim]. *)
Lemma trim_padding a s b :
  forallb isWhiteSpace a = true → forallb isWhiteSpace b = true →
  trim (a ++ s ++ b) = trim s.
Proof.
  intros Ha Hb. unfold trim. rewrite trimStart_app, (trimStart_blank a Ha).
  rewrite trimStart_app. destruct (trimStart s) as [|c r] eqn:E.
  - by rewrite (trimStart_blank b Hb).
  - by apply trimEnd_app_blank.
Qed.

End Acceptance.

(** X1: white space before and after the contact info does not change the
    verdict of the validation. *)
Theorem validateContactInfo_padding (a s b : JSString) :
  forallb isWhiteSpace a = true → forallb isWhiteSpace b = true →
  validateContactInfo (a ++ s ++ b) = validateContactInfo s.
Proof.
  intros Ha Hb. unfold validateContactInfo. by rewrite (trim_padding a s b Ha Hb).
Qed.

Lemma validateContactInfo_padding_witness :
  forallb isWhiteSpace [9; 32] = true ∧ forallb isWhiteSpace [160; 10] = true
  ∧ validateContactInfo ([9; 32] ++ str "user@example.com" ++ [160; 10])
    = validateContactInfo (str "user@example.com").
Proof.
  split; [reflexivity|]. split; [reflexivity|].
  by apply (validateContactInfo_padding [9; 32] (str "user@example.com") [160; 10]).
Defined.

(** ** Letter case *)

Section LetterCase.

(** [f] changes the case of ASCII letters and nothing else. *)
Variable f : N → N.
Hypothesis f_canonical : ∀ c, canonicalize (f c) = canonicalize c.
Hypothesis f_letter : ∀ c, Spec.isLetter (f c) = Spec.isLetter c.
Hypothesis f_other : ∀ c, Spec.isLetter c = false → f c = c.

Lemma letter_not_space c : Spec.isLetter c = true → isWhiteSpace c = false.
Proof.
  unfold Spec.isLetter, isWhiteSpace, isLower, isUpper, inRange. intros H.
  apply not_true_iff_false. intros H'. revert H H'.
  rewrite ?orb_true_iff, ?andb_true_iff, ?N.leb_le, ?N.eqb_eq. lia.
Qed.

Lemma letter_not_phone c :
  Spec.isLetter c = true → Spec.isPhoneChar_whitespace c = false ∧ (c =? ch "+") = false.
Proof.
  intros H. pose proof (letter_not_space c H) as Hs.
  unfold Spec.isPhoneChar_whitespace. rewrite Hs. revert H.
  unfold Spec.isLetter, isLower, isUpper, isDigit, inRange.
  change (ch "-") with 45; change (ch "(") with 40; change (ch ")") with 41;
    change (ch ".") with 46; change (ch "+") with 43.
  intros H. split; apply not_true_iff_false; intros H'; revert H H';
    rewrite ?orb_true_iff, ?andb_true_iff, ?N.leb_le, ?N.eqb_eq, ?false_is_true; lia.
Qed.

Lemma f_space c : isWhiteSpace (f c) = isWhiteSpace c.
Proof.
  destruct (Spec.isLetter c) eqn:E; [|by rewrite f_other].
  rewrite (letter_not_space c E). apply letter_not_space. by rewrite f_letter.
Qed.

Lemma trimStart_map s : trimStart (map f s) = map f (trimStart s).
Proof.
  induction s as [|c s IH]; simpl; [done|].
  rewrite f_space. by destruct (isWhiteSpace c).
Qed.

Lemma trim_map s : trim (map f s) = map f (trim s).
Proof.
  unfold trim, trimEnd. by rewrite trimStart_map, <- map_rev, trimStart_map, map_rev.
Qed.

Lemma repeatMatcher_map m k s :
  (∀ c, m (f c) = m c) → (∀ b r, k b (map f r) = k b r) →
  ∀ min max b,
    repeatMatcher m min max k b (map f s) = repeatMatcher m min max k b s.
Proof.
  intros Hm Hk. induction s as [|c s IH]; intros min max b.
  - destruct max as [[|?]|], min; simpl; try done; apply (Hk b []).
  - assert (match min with O => k b (map f (c :: s)) | S _ => false end
            = match min with O => k b (c :: s) | S _ => false end) as Hstop
      by (destruct min; [apply Hk | done]).
    simpl in *. rewrite Hm, !IH.
    destruct max as [[|?]|]; by rewrite ?Hstop.
Qed.

Lemma matchTerms_map ic ts :
  (∀ a min max c, Quant a min max ∈ ts →
     charSetMatcher ic (atomSet a) (f c) = charSetMatcher ic (atomSet a) c) →
  ∀ b s, matchTerms ic ts b (map f s) = matchTerms ic ts b s.
Proof.
  induction ts as [|t ts IH]; intros Hts b s; [done|].
  assert (∀ b r, matchTerms ic ts b (map f r) = matchTerms ic ts b r) as Hrest.
  { apply IH. intros a min max c H. apply (Hts a min max). by right. }
  destruct t as [| | a min max]; simpl.
  - by rewrite Hrest.
  - destruct s; simpl; [|done]. apply (Hrest b []).
  - apply repeatMatcher_map; [|done]. intros c. apply (Hts a min max). by left.
Qed.

Lemma test_map p s :
  (∀ a min max c, Quant a min max ∈ terms p →
     charSetMatcher (ignoreCase p) (atomSet a) (f c)
     = charSetMatcher (ignoreCase p) (atomSet a) c) →
  test p (map f s) = test p s.
Proof.
  intros Hp. unfold test. generalize true.
  induction s as [|c s IH]; intros b; simpl.
  - reflexivity.
  - rewrite IH. f_equal. apply (matchTerms_map _ _ Hp b (c :: s)).
Qed.

(** With the [i] flag no pattern tells the two cases of a letter apart. *)
Lemma test_ignoreCase_map p s : ignoreCase p = true → test p (map f s) = test p s.
Proof.
  intros Hi. apply test_map. intros a min max c _. rewrite Hi.
  unfold charSetMatcher. by rewrite f_canonical.
Qed.

(** [phoneRegex] has no letter in its classes. *)
Lemma test_phoneRegex_map s : test phoneRegex (map f s) = test phoneRegex s.
Proof.
  apply test_map. intros a min max c Hin. cbn [terms phoneRegex ignoreCase] in *.
  destruct (Spec.isLetter c) eqn:E; [|by rewrite f_other].
  assert (Spec.isLetter (f c) = true) as E' by (by rewrite f_letter).
  destruct (letter_not_phone c E) as [H1 H2].
  destruct (letter_not_phone (f c) E') as [H1' H2'].
  repeat (apply elem_of_cons in Hin as [Hin | Hin]; [try discriminate Hin|]).
  - injection Hin as -> _ _. change ((f c =? ch "+") = (c =? ch "+")).
    by rewrite H2, H2'.
  - injection Hin as -> _ _. by rewrite !phone_class, H1, H1'.
  - by apply elem_of_nil in Hin.
Qed.

Lemma validateContactInfo_map s :
  validateContactInfo (map f s) = validateContactInfo s.
Proof.
  unfold validateContactInfo. rewrite trim_map.
  by rewrite (test_ignoreCase_map emailRegex), test_phoneRegex_map.
Qed.

End LetterCase.

(** X2: the validation does not look at the case of the ASCII letters: the
    string with every lower-case letter in upper case, and the string with
    every upper-case letter in lower case, get the verdict of the string. *)
Theorem validateContactInfo_ignores_case (s : JSString) :
  validateContactInfo (map canonicalize s) = validateContactInfo s
  ∧ validateContactInfo (map lowerOf s) = validateContactInfo s.
Proof.
  split; apply validateContactInfo_map; intros c;
    unfold canonicalize, lowerOf, Spec.isLetter, isLower, isUpper, inRange;
    repeat match goal with
           | |- context [if ?b then _ else _] => destruct b eqn:?
           end;
    try done;
    repeat match goal with
           | H : _ = true |- _ => revert H
           | H : _ = false |- _ => revert H
           end;
    rewrite ?orb_true_iff, ?orb_false_iff, ?andb_true_iff, ?andb_false_iff,
      ?N.leb_le, ?N.leb_gt; intros;
    try lia;
    try (apply eq_true_iff_eq;
         rewrite ?orb_true_iff, ?andb_true_iff, ?N.leb_le; lia).
Qed.

(** ** The shape of what is accepted *)

Section Shape.

Lemma forallb_elem (f : N → bool) l x : forallb f l = true → x ∈ l → f x = true.
Proof.
  induction l as [|y l IH]; simpl; intros H Hx.
  - by apply elem_of_nil in Hx.
  - apply andb_true_iff in H as [Hy Hl].
    apply elem_of_cons in Hx as [-> | Hx]; [done | by apply IH].
Qed.

Lemma phone_pattern_no_at s :
  Spec.phone_pattern Spec.isPhoneChar_whitespace s → ch "@" ∉ s.
Proof.
  intros (a & b & -> & Ha & _ & _ & Hb) [H | H]%elem_of_app.
  - destruct Ha as [-> | ->]; [by apply elem_of_nil in H|].
    by apply list_elem_of_singleton in H.
  - by apply (forallb_elem _ _ _ Hb) in H.
Qed.

(** A string splits in one way only around a character that is on neither
    side. *)
Lemma split_unique (x : N) L' R' : ∀ L R,
  x ∉ L' → x ∉ R' → L ++ x :: R = L' ++ x :: R' → L = L' ∧ R = R'.
Proof.
  induction L' as [|y' L' IH]; intros L R HL' HR' E.
  - destruct L as [|y L]; simpl in E.
    + by injection E as ->.
    + injection E as -> E. destruct HR'. rewrite <- E.
      apply elem_of_app. right. by left.
  - apply not_elem_of_cons in HL' as [Hy' HL'].
    destruct L as [|y L]; simpl in E.
    + by injection E as ->.
    + injection E as -> E. by destruct (IH L R HL' HR' E) as [-> ->].
Qed.

Lemma class_excludes (f : N → bool) (x : N) l :
  f x = false → forallb f l = true → x ∉ l.
Proof. intros Hx Hl Hin. by rewrite (forallb_elem f l x Hl Hin) in Hx. Qed.

(** The parts of an address: one [@], and one dot after it. *)
Lemma email_pattern_parts s L R :
  Spec.email_pattern s → s = L ++ ch "@" :: R →
  (ch "@" ∉ L)
  ∧ ∃ d t, R = d ++ ch "." :: t ∧ (ch "." ∉ d) ∧ (ch "." ∉ t)
           ∧ (1 ≤ length L)%nat ∧ (1 ≤ length d)%nat ∧ (2 ≤ length t)%nat.
Proof.
  intros (l & d & t & -> & Hl1 & Hl & Hd1 & Hd & Ht1 & Ht) E.
  assert (ch "@" ∉ l) as Hal by (by apply (class_excludes Spec.isLocalChar)).
  assert (ch "@" ∉ (d ++ [ch "."] ++ t)) as Har.
  { rewrite !elem_of_app. intros [H | [H | H]].
    - by apply (class_excludes Spec.isDomainChar (ch "@") _ eq_refl Hd) in H.
    - by apply list_elem_of_singleton in H.
    - by apply (class_excludes Spec.isLetter (ch "@") _ eq_refl Ht) in H. }
  symmetry in E. destruct (split_unique _ _ _ _ _ Hal Har E) as [-> ->].
  split; [done|]. exists d, t. repeat split; try done.
  - by apply (class_excludes Spec.isDomainChar).
  - by apply (class_excludes Spec.isLetter).
Qed.

Lemma trimStart_app_cons l c r :
  isWhiteSpace c = false → trimStart (l ++ c :: r) = trimStart l ++ c :: r.
Proof.
  intros Hc. rewrite trimStart_app. simpl. rewrite Hc. by destruct (trimStart l).
Qed.

Lemma trimEnd_app_cons l c r :
  isWhiteSpace c = false → trimEnd (l ++ c :: r) = l ++ c :: trimEnd r.
Proof.
  intros Hc. unfold trimEnd. rewrite rev_app_distr. simpl. rewrite <- app_assoc. simpl.
  rewrite trimStart_app_cons by done. rewrite rev_app_distr. simpl.
  by rewrite rev_involutive, <- app_assoc.
Qed.

Lemma validateContactInfo_shape s :
  validateContactInfo s = true →
  Spec.email_pattern (trim s) ∨ Spec.phone_pattern Spec.isPhoneChar_whitespace (trim s).
Proof.
  unfold validateContactInfo. intros [H | H]%orb_true_iff.
  - left. by apply test_emailRegex.
  - right. by apply test_phoneRegex.
Qed.

End Shape.

(** X3: no string is both an email address and a phone number for the two
    patterns. *)
Theorem email_and_phone_exclusive (s : JSString) :
  test emailRegex s && test phoneRegex s = false.
Proof.
  destruct (test emailRegex s) eqn:He; [|done].
  destruct (test phoneRegex s) eqn:Hp; [|done].
  apply test_emailRegex, email_pattern_has_at in He.
  by apply test_phoneRegex, phone_pattern_no_at in Hp.
Qed.

(** X4: an address with two dots or more after its [@], such as
    user@mail.example.com, is never accepted, whatever stands around them. *)
Theorem validateContactInfo_rejects_subdomain (l d1 d2 d3 : JSString) :
  validateContactInfo (l ++ [ch "@"] ++ d1 ++ [ch "."] ++ d2 ++ [ch "."] ++ d3) = false.
Proof.
  apply not_true_iff_false. intros H.
  apply validateContactInfo_shape in H.
  assert (trim (l ++ [ch "@"] ++ d1 ++ [ch "."] ++ d2 ++ [ch "."] ++ d3)
          = trimStart l ++ ch "@" :: (d1 ++ ch "." :: (d2 ++ ch "." :: trimEnd d3))) as E.
  { unfold trim. simpl. rewrite trimStart_app_cons by done.
    rewrite trimEnd_app_cons by done. do 2 f_equal.
    rewrite trimEnd_app_cons by done. do 2 f_equal.
    by rewrite trimEnd_app_cons. }
  rewrite E in H. destruct H as [H | H].
  - destruct (email_pattern_parts _ _ _ H eq_refl)
      as (_ & d & t & Hr & Hd & Ht & _).
    destruct (split_unique _ _ _ _ _ Hd Ht Hr) as [_ <-].
    destruct Ht. apply elem_of_app. right. by left.
  - apply phone_pattern_no_at in H. destruct H.
    apply elem_of_app. right. by left.
Qed.

(** X5: what is accepted has, once trimmed, either one [@] and six
    characters or more, or no [@] and 7 to 21 characters. *)
Theorem validateContactInfo_length (s : JSString) :
  validateContactInfo s = true →
  (ch "@" ∈ trim s ∧ (6 ≤ length (trim s))%nat)
  ∨ ((ch "@" ∉ trim s) ∧ (7 ≤ length (trim s) ≤ 21)%nat).
Proof.
  intros [H | H]%validateContactInfo_shape.
  - left. split; [by apply email_pattern_has_at|].
    destruct H as (l & d & t & -> & Hl & _ & Hd & _ & Ht & _).
    rewrite !length_app. simpl. lia.
  - right. split; [by apply phone_pattern_no_at|].
    destruct H as (a & b & -> & Ha & Hmin & Hmax & _).
    rewrite length_app. destruct Ha as [-> | ->]; simpl; lia.
Qed.

Lemma validateContactInfo_length_witness :
  validateContactInfo (str "a@b.co") = true
  ∧ ((ch "@" ∈ trim (str "a@b.co") ∧ (6 ≤ length (trim (str "a@b.co")))%nat)
     ∨ ((ch "@" ∉ trim (str "a@b.co")) ∧ (7 ≤ length (trim (str "a@b.co")) ≤ 21)%nat)).
Proof.
  split; [reflexivity|]. by apply (validateContactInfo_length (str "a@b.co")).
Defined.

(** ** Submissions *)

Section Submissions.

Import Popup Session.

Lemma handleNextClick_keeps onNext st :
  contactInfo (handleNextClick onNext st).1 = contactInfo st
  ∧ selectedMaterials (handleNextClick onNext st).1 = selectedMaterials st
  ∧ selectedPreferences (handleNextClick onNext st).1 = selectedPreferences st.
Proof.
  unfold handleNextClick.
  destruct (negb (truthy _)); [done|]. by destruct (negb (validateContactInfo _)).
Qed.

Lemma handleNextClick_rejects onNext st :
  validateContactInfo (contactInfo st) = false →
  (handleNextClick onNext st).2 = [] ∧ truthy (error (handleNextClick onNext st).1) = true.
Proof.
  intros Hv. destruct (trim (contactInfo st)) as [|c r] eqn:E.
  - by rewrite (handleNextClick_required onNext st E).
  - rewrite (handleNextClick_invalid onNext st); [done | by rewrite E | done].
Qed.

(** The store only grows. *)
Lemma step_heap_prefix onNext w e w' calls :
  step onNext w e = Some (w', calls) → heap w `prefix_of` heap w'.
Proof.
  destruct e as [c | v | v |]; simpl.
  - by intros [= <- _].
  - unfold Dropdown.handleOptionClick. destruct (heap w !! _) as [arr|]; [|done]. simpl.
    destruct (Dropdown.includes arr v); intros [= <- _]; simpl; by apply prefix_app_r.
  - unfold Dropdown.handleOptionClick. destruct (heap w !! _) as [arr|]; [|done]. simpl.
    destruct (Dropdown.includes arr v); intros [= <- _]; simpl; by apply prefix_app_r.
  - destruct (handleNextClick onNext (state w)). by intros [= <- _].
Qed.

Lemma run_heap_prefix onNext es : ∀ w w' calls,
  run onNext w es = Some (w', calls) → heap w `prefix_of` heap w'.
Proof.
  induction es as [|e es IH]; intros w w' calls; simpl.
  - by intros [= <- _].
  - destruct (step onNext w e) as [[w1 c1]|] eqn:E1; [|done]. simpl.
    destruct (run onNext w1 es) as [[w2 c2]|] eqn:E2; [|done]. simpl.
    intros [= <- _]. etrans; [by eapply step_heap_prefix | by eapply IH].
Qed.

Lemma sound_prefix h h' p : h `prefix_of` h' → sound h p → sound h' p.
Proof.
  intros Hh (Hv & Ht & ms & ps & Hm & Hnm & Hp & Hnp).
  split; [done|]. split; [done|]. exists ms, ps.
  split; [by eapply prefix_lookup_Some|]. split; [done|].
  split; [by eapply prefix_lookup_Some | done].
Qed.

Lemma step_sound onNext w e w' calls :
  duplicateFree w → step onNext w e = Some (w', calls) → Forall (sound (heap w')) calls.
Proof.
  intros (ms & ps & Hm & Hnm & Hp & Hnp). destruct e as [c | v | v |]; simpl.
  - by intros [= <- <-].
  - destruct (Dropdown.handleOptionClick _ _ _) as [[h r]|]; [|done]. by intros [= <- <-].
  - destruct (Dropdown.handleOptionClick _ _ _) as [[h r]|]; [|done]. by intros [= <- <-].
  - destruct (validateContactInfo (contactInfo (state w))) eqn:Hv.
    + rewrite (handleNextClick_accepts onNext _ Hv). intros [= <- <-]. simpl.
      destruct onNext; [|done]. apply Forall_singleton.
      split; [simpl; by rewrite validateContactInfo_trim|].
      split; [apply trim_idem|]. by exists ms, ps.
    + destruct (handleNextClick_rejects onNext _ Hv) as [Hc _].
      destruct (handleNextClick onNext (state w)) as [st calls']. simpl in Hc. subst.
      by intros [= <- <-].
Qed.

Lemma run_sound onNext es : ∀ w,
  duplicateFree w →
  ∃ w' calls, run onNext w es = Some (w', calls) ∧ Forall (sound (heap w')) calls.
Proof.
  induction es as [|e es IH]; intros w Hw; simpl.
  - by exists w, [].
  - destruct (step_duplicateFree onNext w e Hw) as (w1 & c1 & E1 & Hw1).
    rewrite E1. simpl.
    destruct (IH w1 Hw1) as (w2 & c2 & E2 & Hc2). rewrite E2. simpl.
    eexists _, _. split; [done|]. apply Forall_app. split; [|done].
    eapply Forall_impl; [exact (step_sound onNext w e w1 c1 Hw E1)|].
    intros p. apply sound_prefix. exact (run_heap_prefix onNext es w1 w2 c2 E2).
Qed.

End Submissions.

(** X6: after a click on Next, [onNext] has been called once and no error is
    shown when the contact info passes the validation; otherwise nothing is
    called, a message is shown and the input has the red border. *)
Theorem next_click_outcome (w : Popup.World) :
  ∃ w' calls,
    Popup.step true w Popup.NextClick = Some (w', calls)
    ∧ if validateContactInfo (Popup.contactInfo (Popup.state w))
      then length calls = 1%nat
           ∧ Session.errorBox (Popup.state w') = None
           ∧ Session.inputBorder (Popup.state w') = str "1px solid #ccc"
      else calls = []
           ∧ Session.errorBox (Popup.state w') = Some (Popup.error (Popup.state w'))
           ∧ Popup.error (Popup.state w') ≠ []
           ∧ Session.inputBorder (Popup.state w') = str "1px solid red".
Proof.
  unfold Popup.step.
  destruct (validateContactInfo (Popup.contactInfo (Popup.state w))) eqn:Hv.
  - rewrite (handleNextClick_accepts true _ Hv). by eexists _, _.
  - destruct (handleNextClick_rejects true _ Hv) as [Hc He].
    destruct (Popup.handleNextClick true (Popup.state w)) as [st calls].
    simpl in *. subst calls. eexists _, _. split; [done|].
    unfold Session.errorBox, Session.inputBorder. simpl. rewrite He.
    repeat split. by destruct (Popup.error st).
Qed.

(** X7: in every run of the pop-up since the mount, each payload [onNext]
    received holds a trimmed contact info that passes the validation, and, in
    the store at the end of the run, two arrays without duplicates. *)
Theorem onNext_payloads_sound (onNext : bool) (es : list Popup.Event) :
  ∃ w calls,
    Popup.run onNext Popup.mount es = Some (w, calls)
    ∧ Forall (Session.sound (Popup.heap w)) calls.
Proof. apply run_sound, mount_duplicateFree. Qed.

(** X8: no event changes an array that is in the store: what a reference
    reads before a run, it reads after it. *)
Theorem run_never_mutates (onNext : bool) (es : list Popup.Event)
    (w w' : Popup.World) (calls : list Popup.Payload) (r : Ref) (a : list JSString) :
  Popup.run onNext w es = Some (w', calls) →
  Popup.heap w !! r = Some a →
  Popup.heap w' !! r = Some a.
Proof.
  intros Hrun Hr. eapply prefix_lookup_Some; [done|]. by eapply run_heap_prefix.
Qed.

Lemma run_never_mutates_witness :
  let w := {| Popup.heap := [ [str "react"]; [] ];
              Popup.state := Popup.state Popup.mount |} in
  let es := [Popup.MaterialClick (str "javascript"); Popup.MaterialClick (str "react");
             Popup.PreferenceClick (str "online")] in
  ∃ w',
    Popup.run true w es = Some (w', [])
    ∧ Popup.heap w !! 0%nat = Some [str "react"]
    ∧ Popup.heap w' !! 0%nat = Some [str "react"]
    ∧ Popup.materials w' = Some [str "javascript"].
Proof.
  intros w es. eexists. split; [reflexivity|]. split; [reflexivity|].
  split; [|reflexivity].
  by apply (run_never_mutates true es w _ [] 0%nat [str "react"]).
Defined.

(** X9: the error changes on a click on Next only: edits of the contact
    info and toggles leave the message as it is, and call nothing. *)
Theorem error_changes_on_next_only (onNext : bool) (es : list Popup.Event)
    (w w' : Popup.World) (calls : list Popup.Payload) :
  forallb (λ e, negb (Session.isNextClick e)) es = true →
  Popup.run onNext w es = Some (w', calls) →
  Popup.error (Popup.state w') = Popup.error (Popup.state w) ∧ calls = [].
Proof.
  revert w w' calls. induction es as [|e es IH]; intros w w' calls Hes; simpl.
  - by intros [= <- <-].
  - simpl in Hes. apply andb_true_iff in Hes as [He Hes].
    destruct (Popup.step onNext w e) as [[w1 c1]|] eqn:E1; [|done]. simpl.
    destruct (Popup.run onNext w1 es) as [[w2 c2]|] eqn:E2; [|done]. simpl.
    intros [= <- <-]. destruct (IH _ _ _ Hes E2) as [-> ->].
    destruct e as [c | v | v |]; simpl in E1; [| | |done].
    + by injection E1 as <- <-.
    + destruct (Dropdown.handleOptionClick _ _ _) as [[h r]|]; [|done].
      by injection E1 as <- <-.
    + destruct (Dropdown.handleOptionClick _ _ _) as [[h r]|]; [|done].
      by injection E1 as <- <-.
Qed.

(** X9 after a refused submission: a valid address is typed, and the message
    of the refusal is still there. *)
Lemma error_changes_on_next_only_witness :
  let w := {| Popup.heap := Popup.heap Popup.mount;
              Popup.state := Popup.setError (Popup.state Popup.mount)
                               (str "Contact info is required.") |} in
  let es := [Popup.ContactChange (str "user@example.com");
             Popup.MaterialClick (str "react")] in
  forallb (λ e, negb (Session.isNextClick e)) es = true
  ∧ ∃ w', Popup.run true w es = Some (w', [])
          ∧ Popup.contactInfo (Popup.state w') = str "user@example.com"
          ∧ Popup.error (Popup.state w') = str "Contact info is required.".
Proof.
  intros w es. split; [reflexivity|]. eexists. split; [reflexivity|].
  split; [reflexivity|].
  by apply (error_changes_on_next_only true es w _ [] eq_refl).
Defined.

(** X10: a second click on Next, with nothing done in between, does what
    the first did: the same state, and the same calls of [onNext] again. *)
Theorem next_click_twice (onNext : bool) (w : Popup.World) :
  ∃ w' calls,
    Popup.step onNext w Popup.NextClick = Some (w', calls)
    ∧ Popup.step onNext w' Popup.NextClick = Some (w', calls)
    ∧ Popup.run onNext w [Popup.NextClick; Popup.NextClick] = Some (w', calls ++ calls).
Proof.
  assert (∀ st, Popup.handleNextClick onNext (Popup.handleNextClick onNext st).1
                = Popup.handleNextClick onNext st) as Hsame.
  { intros st. unfold Popup.handleNextClick.
    destruct (negb (truthy (trim (Popup.contactInfo st)))) eqn:E1; simpl.
    - by rewrite E1.
    - destruct (negb (validateContactInfo (trim (Popup.contactInfo st)))) eqn:E2;
        simpl; by rewrite E1, E2. }
  specialize (Hsame (Popup.state w)).
  destruct (Popup.handleNextClick onNext (Popup.state w)) as [st calls] eqn:E.
  simpl in Hsame.
  exists {| Popup.heap := Popup.heap w; Popup.state := st |}, calls.
  simpl. rewrite E. simpl. rewrite Hsame. simpl. by rewrite app_nil_r.
Qed.

(** ** The open list and the chips *)

Section Rows.

Import Dropdown Widget.

Lemma elem_of_toggled arr v x :
  x ∈ toggled arr v ↔ (x ≠ v ∧ x ∈ arr) ∨ (x = v ∧ v ∉ arr).
Proof.
  destruct (decide (v ∈ arr)) as [Hin | Hin].
  - rewrite (toggled_member _ _ Hin), list_elem_of_filter. tauto.
  - rewrite (toggled_absent _ _ Hin), elem_of_app, list_elem_of_singleton.
    split; [|tauto]. intros [H | H]; [|tauto].
    left. split; [|done]. by intros ->.
Qed.

(** After a toggle of [v] the array has [v] if and only if it had not, and
    has every other value if and only if it had it. *)
Lemma includes_toggled arr v x :
  includes (toggled arr v) x
  = if bool_decide (x = v) then negb (includes arr v) else includes arr x.
Proof.
  unfold includes. destruct (decide (x = v)) as [-> | Hx].
  - rewrite (bool_decide_eq_true_2 (v = v)) by done. apply eq_true_iff_eq.
    rewrite negb_true_iff, bool_decide_eq_true, bool_decide_eq_false, elem_of_toggled.
    tauto.
  - rewrite (bool_decide_eq_false_2 (x = v)) by done. apply eq_true_iff_eq.
    rewrite !bool_decide_eq_true, elem_of_toggled. tauto.
Qed.

Lemma rowOf_toggled arr v o :
  rowOf (toggled arr v) o = flipRowOf v (rowOf arr o).
Proof.
  unfold rowOf, flipRowOf. simpl. rewrite includes_toggled.
  destruct (decide (value o = v)) as [Hv | Hv].
  - rewrite !bool_decide_eq_true_2 by done. by rewrite Hv.
  - by rewrite !bool_decide_eq_false_2.
Qed.

Lemma chips_filter options v sel :
  map (chipOf options) (filter (λ x, x ≠ v) sel)
  = filter (λ c, key c ≠ v) (map (chipOf options) sel).
Proof.
  induction sel as [|x sel IH]; [done|]. simpl.
  destruct (decide (x = v)) as [-> | Hx].
  - rewrite !filter_cons_False by (simpl; by intros ?). exact IH.
  - rewrite !filter_cons_True by done. simpl. by rewrite IH.
Qed.

End Rows.

(** X11: a click on an option (or on a chip) turns the checkbox of the rows
    of that value the other way, and leaves every other row of the open list
    as it was. *)
Theorem option_click_flips_its_checkbox
    (h : Heap) (r : Ref) (sel : list JSString) (options : list Dropdown.OptionObj)
    (v : JSString) :
  h !! r = Some sel →
  ∃ h' r' new,
    Dropdown.handleOptionClick h r v = Some (h', r')
    ∧ h' !! r' = Some new
    ∧ Widget.renderList options new true
      = map (Widget.flipRowOf v) <$> Widget.renderList options sel true.
Proof.
  intros Hr. rewrite (handleOptionClick_alloc _ _ _ _ Hr).
  eexists _, _, _. split; [done|]. split; [apply alloc_lookup_new|].
  simpl. f_equal. rewrite map_map. apply map_ext. intros o. apply rowOf_toggled.
Qed.

Lemma option_click_flips_its_checkbox_witness :
  let h : Heap := [ [str "react"] ] in
  h !! 0%nat = Some [str "react"]
  ∧ ∃ h' r' new,
      Dropdown.handleOptionClick h 0%nat (str "javascript") = Some (h', r')
      ∧ h' !! r' = Some new
      ∧ Widget.checked <$> default [] (Widget.renderList Popup.materialOptions new true)
        = [true; true]
      ∧ Widget.checked
          <$> default [] (Widget.renderList Popup.materialOptions [str "react"] true)
        = [false; true].
Proof.
  intros h. split; [reflexivity|].
  destruct (option_click_flips_its_checkbox h 0%nat [str "react"] Popup.materialOptions
              (str "javascript") eq_refl) as (h' & r' & new & H1 & H2 & H3).
  exists h', r', new. split; [done|]. split; [done|]. by rewrite H3.
Defined.

(** X12: removing a selected value takes its chip out of the header and
    leaves the other chips as they were, in their order, whatever the option
    list; when no chip is left the header shows the text of the first option
    again, and throws when there is no option. *)
Theorem chip_remove_keeps_other_chips
    (h : Heap) (r : Ref) (sel : list JSString)
    (options : list Dropdown.OptionObj) (v : JSString) :
  h !! r = Some sel → v ∈ sel →
  ∃ h' r' new cs,
    Dropdown.handleOptionClick h r v = Some (h', r')
    ∧ h' !! r' = Some new
    ∧ Dropdown.renderHeader options sel = Dropdown.Returns (Dropdown.Chips cs)
    ∧ Dropdown.renderHeader options new
      = match filter (λ c, Dropdown.key c ≠ v) cs with
        | c :: cs' => Dropdown.Returns (Dropdown.Chips (c :: cs'))
        | [] =>
            match options with
            | o :: _ => Dropdown.Returns (Dropdown.Hint (Dropdown.text o))
            | [] => Dropdown.ThrowsTypeError
            end
        end.
Proof.
  intros Hr Hin. rewrite (handleOptionClick_alloc _ _ _ _ Hr).
  eexists _, _, _, _. split; [done|]. split; [apply alloc_lookup_new|].
  rewrite (toggled_member _ _ Hin). split.
  - unfold Dropdown.renderHeader. destruct sel; [by apply elem_of_nil in Hin | done].
  - unfold Dropdown.renderHeader. rewrite <- chips_filter.
    by destruct (filter (λ x, x ≠ v) sel).
Qed.

(** X12 on the materials: the chip of javascript is removed and the chip of
    react stays; and with no option at all, removing the only chip throws. *)
Lemma chip_remove_keeps_other_chips_witness :
  let h : Heap := [ [str "javascript"; str "react"] ] in
  h !! 0%nat = Some [str "javascript"; str "react"]
  ∧ str "javascript" ∈ [str "javascript"; str "react"]
  ∧ (∃ h' r' new c,
       Dropdown.handleOptionClick h 0%nat (str "javascript") = Some (h', r')
       ∧ h' !! r' = Some new
       ∧ Dropdown.renderHeader Popup.materialOptions new
         = Dropdown.Returns (Dropdown.Chips [c])
       ∧ Dropdown.chipText c = str "React")
  ∧ ∃ h' r' new,
      Dropdown.handleOptionClick [ [str "react"] ] 0%nat (str "react") = Some (h', r')
      ∧ h' !! r' = Some new
      ∧ Dropdown.renderHeader [] new = Dropdown.ThrowsTypeError.
Proof.
  intros h. split; [reflexivity|]. split; [by left|]. split.
  - destruct (chip_remove_keeps_other_chips h 0%nat [str "javascript"; str "react"]
                Popup.materialOptions (str "javascript") eq_refl)
      as (h' & r' & new & cs & H1 & H2 & H3 & H4); [by left|].
    injection H3 as <-.
    exists h', r', new, (Dropdown.chipOf Popup.materialOptions (str "react")).
    split; [done|]. split; [done|]. split; [exact H4 | reflexivity].
  - destruct (chip_remove_keeps_other_chips [ [str "react"] ] 0%nat [str "react"]
                [] (str "react") eq_refl)
      as (h' & r' & new & cs & H1 & H2 & H3 & H4); [by left|].
    injection H3 as <-. by exists h', r', new.
Defined.

(** ** Opening and closing *)

Section OpenClose.

Import Dropdown Widget.

Lemma interact_opens_by_header_only w i :
  isHeaderClick i = false → isOpen (interact w i) = true → isOpen w = true.
Proof.
  destruct i as [[| | |dt] | current contains]; simpl; try done.
  - unfold handleMouseEnter. by destruct (closeTimeoutRef w) as [[|id]|].
  - by destruct (filter _ (pending w)).
  - unfold handleClickOutside. by destruct (current && negb contains).
Qed.

Lemma step_tidy inside w e :
  alternates inside [e] = true → tidy inside w → tidy (pointerAfter inside [e]) (step w e).
Proof.
  intros He [Hid Hp]. destruct e as [| | |dt]; simpl in *.
  - done.
  - rewrite andb_true_r in He. subst inside. split; [done|]. right.
    destruct (nextId w) as [|id] eqn:E; [done|].
    exists id, (now w + 300)%nat. unfold handleMouseLeave. simpl. by rewrite Hp, E.
  - rewrite andb_true_r in He. apply negb_true_iff in He. subst inside.
    unfold handleMouseEnter. destruct Hp as [Hp | (id & due & Hp & Href)].
    + destruct (closeTimeoutRef w) as [[|id]|]; simpl; [done| |done].
      split; [done|]. by rewrite Hp.
    + rewrite Href. simpl. split; [done|]. rewrite Hp. unfold clearTimeout.
      by rewrite filter_cons_False by (simpl; by intros ?).
  - split; [done|]. unfold elapse. simpl. destruct inside.
    + by rewrite Hp.
    + destruct Hp as [Hp | (id & due & Hp & Href)]; [left; by rewrite Hp|].
      rewrite Hp. destruct (decide (due ≤ now w + dt)%nat) as [Hd | Hd].
      * left. by rewrite filter_cons_False by (simpl; by intros ?).
      * right. exists id, due. by rewrite filter_cons_True.
Qed.

Lemma run_tidy es : ∀ inside w,
  alternates inside es = true → tidy inside w →
  tidy (pointerAfter inside es) (run w es).
Proof.
  induction es as [|e es IH]; intros inside w Hes Hw; [done|].
  assert (alternates inside [e] = true
          ∧ alternates (pointerAfter inside [e]) es = true
          ∧ pointerAfter inside (e :: es) = pointerAfter (pointerAfter inside [e]) es)
    as (He & Hes' & ->).
  { destruct e; simpl in *; rewrite ?andb_true_r; try done;
      by apply andb_true_iff in Hes as [? ?]. }
  apply (IH _ (step w e) Hes'). by apply step_tidy.
Qed.

End OpenClose.

(** X13: the dropdown opens by a click on its header only: when a sequence
    of pointer moves, timer runs and clicks in the document has no click on
    the header, a dropdown that is open after it was open before it. *)
Theorem opens_by_header_click_only (w : Dropdown.Widget) (acts : list Widget.Interaction) :
  forallb (λ i, negb (Widget.isHeaderClick i)) acts = true →
  Dropdown.isOpen (Widget.interactions w acts) = true →
  Dropdown.isOpen w = true.
Proof.
  revert w. induction acts as [|i acts IH]; intros w Hacts; [done|].
  simpl in Hacts. apply andb_true_iff in Hacts as [Hi Hacts].
  apply negb_true_iff in Hi. intros H. simpl in H.
  apply (interact_opens_by_header_only w i Hi). by apply IH.
Qed.

Lemma opens_by_header_click_only_witness :
  let w := Dropdown.toggleDropdown Dropdown.mounted in
  let acts := [Widget.MouseDown true true; Widget.OnWidget Dropdown.MouseLeave;
               Widget.OnWidget (Dropdown.Elapse 299)] in
  forallb (λ i, negb (Widget.isHeaderClick i)) acts = true
  ∧ Dropdown.isOpen (Widget.interactions w acts) = true
  ∧ Dropdown.isOpen w = true.
Proof.
  intros w acts. split; [reflexivity|]. split; [reflexivity|].
  by apply (opens_by_header_click_only w acts).
Defined.

(** X14: when the pointer leaves and enters in turn, at most one close is
    pending at any time.  While the pointer is inside none is pending, and no
    timer closes the dropdown however long the pointer stays; while it is
    outside the pending close, if any, is the one the ref names. *)
Theorem alternating_pointer_one_pending_close (inside : bool) (es : list Dropdown.Event) :
  Widget.alternates inside es = true →
  (length (Dropdown.pending (Dropdown.run Dropdown.mounted es)) ≤ 1)%nat
  ∧ if Widget.pointerAfter inside es
    then Dropdown.pending (Dropdown.run Dropdown.mounted es) = []
         ∧ ∀ dt, Dropdown.isOpen (Dropdown.elapse dt (Dropdown.run Dropdown.mounted es))
                 = Dropdown.isOpen (Dropdown.run Dropdown.mounted es)
    else Dropdown.pending (Dropdown.run Dropdown.mounted es) = []
         ∨ ∃ id due,
             Dropdown.pending (Dropdown.run Dropdown.mounted es) = [(S id, due)]
             ∧ Dropdown.closeTimeoutRef (Dropdown.run Dropdown.mounted es) = Some (S id).
Proof.
  intros Hes.
  assert (Widget.tidy inside Dropdown.mounted) as H0
    by (split; [done | by destruct inside; [|left]]).
  destruct (run_tidy es inside _ Hes H0) as [_ Hp].
  destruct (Widget.pointerAfter inside es).
  - rewrite Hp. split; [simpl; lia|]. split; [done|]. intros dt.
    unfold Dropdown.elapse. simpl. by rewrite Hp.
  - split; [|done]. destruct Hp as [-> | (id & due & -> & _)]; simpl; lia.
Qed.

Lemma alternating_pointer_one_pending_close_witness :
  let es := [Dropdown.HeaderClick; Dropdown.MouseLeave; Dropdown.Elapse 100;
             Dropdown.MouseEnter; Dropdown.Elapse 1000] in
  Widget.alternates true es = true
  ∧ Dropdown.pending (Dropdown.run Dropdown.mounted es) = []
  ∧ Dropdown.isOpen (Dropdown.run Dropdown.mounted es) = true.
Proof.
  intros es. split; [reflexivity|].
  destruct (alternating_pointer_one_pending_close true es eq_refl) as [_ H].
  split; [exact (proj1 H) | reflexivity].
Defined.

(** X15: with no close pending, a leave closes the dropdown after 300 ms and
    not before: [dt] ms after the leave the dropdown is open if and only if it
    was open and [dt] is below 300. *)
Theorem leave_closes_after_300 (w : Dropdown.Widget) (dt : nat) :
  Dropdown.pending w = [] →
  Dropdown.isOpen (Dropdown.run w [Dropdown.MouseLeave; Dropdown.Elapse dt])
  = Dropdown.isOpen w && bool_decide (dt < 300)%nat.
Proof.
  intros Hp. simpl. unfold Dropdown.elapse. simpl. rewrite Hp. simpl.
  destruct (decide (dt < 300)%nat) as [Hd | Hd].
  - rewrite bool_decide_eq_true_2, andb_true_r by done.
    by rewrite filter_cons_False by (simpl; lia).
  - rewrite bool_decide_eq_false_2, andb_false_r by done.
    by rewrite filter_cons_True by (simpl; lia).
Qed.

Lemma leave_closes_after_300_witness :
  let w := Dropdown.toggleDropdown Dropdown.mounted in
  Dropdown.pending w = []
  ∧ Dropdown.isOpen (Dropdown.run w [Dropdown.MouseLeave; Dropdown.Elapse 299]) = true
  ∧ Dropdown.isOpen (Dropdown.run w [Dropdown.MouseLeave; Dropdown.Elapse 300]) = false.
Proof.
  intros w. split; [reflexivity|].
  by rewrite !(leave_closes_after_300 w _ eq_refl).
Defined.

(** ** The selections the pop-up offers *)

Section Offered.

Import Dropdown Popup Session.

Lemma findOption_offered options v :
  v ∈ map value options →
  ∃ o, findOption options v = Some o ∧ o ∈ options ∧ value o = v.
Proof.
  intros Hv. destruct (findOption options v) as [o|] eqn:E.
  - exists o. split; [done|]. unfold findOption in E.
    apply find_some in E as [Hin Heq]. split; [by apply list_elem_of_In|].
    by apply bool_decide_eq_true in Heq.
  - apply list_elem_of_fmap in Hv as (o & -> & Ho).
    by destruct (proj1 (findOption_None options (value o)) E o Ho).
Qed.

Lemma toggled_offered (values arr : list JSString) v :
  (∀ x, x ∈ arr → x ∈ values) → v ∈ values ∨ v ∈ arr →
  ∀ x, x ∈ toggled arr v → x ∈ values.
Proof.
  intros Harr Hv x [[_ Hx] | [-> _]]%elem_of_toggled; [by apply Harr|].
  destruct Hv as [Hv | Hv]; [done | by apply Harr].
Qed.

Lemma clickable_offered options arr v :
  clickable options (Some arr) v = true → v ∈ map value options ∨ v ∈ arr.
Proof.
  unfold clickable. intros [H | H]%orb_true_iff.
  - left. by apply bool_decide_eq_true in H.
  - right. by apply includes_true.
Qed.

Lemma step_offeredOnly onNext w e :
  offeredOnly w → enabled w e = true →
  ∃ w' calls, step onNext w e = Some (w', calls) ∧ offeredOnly w'.
Proof.
  intros (ms & ps & Hm & Hnm & Hsm & Hp & Hnp & Hsp) He.
  destruct e as [c | v | v |]; simpl in *.
  - eexists _, _. split; [done|]. by exists ms, ps.
  - rewrite Hm in He. apply clickable_offered in He.
    unfold materials in Hm. rewrite (handleOptionClick_alloc _ _ _ _ Hm). simpl.
    eexists _, _. split; [done|].
    exists (toggled ms v), ps. unfold materials, preferences. simpl.
    split; [by apply list_lookup_middle|]. split; [by apply toggled_NoDup|].
    split; [by apply toggled_offered|].
    split; [by apply lookup_app_l_Some | done].
  - rewrite Hp in He. apply clickable_offered in He.
    unfold preferences in Hp. rewrite (handleOptionClick_alloc _ _ _ _ Hp). simpl.
    eexists _, _. split; [done|].
    exists ms, (toggled ps v). unfold materials, preferences. simpl.
    split; [by apply lookup_app_l_Some|]. split; [done|]. split; [done|].
    split; [by apply list_lookup_middle|]. split; [by apply toggled_NoDup|].
    by apply toggled_offered.
  - destruct (handleNextClick onNext (state w)) as [st calls] eqn:E.
    eexists _, _. split; [done|]. exists ms, ps.
    pose proof (handleNextClick_keeps onNext (state w)) as (_ & E1 & E2).
    rewrite E in E1, E2. simpl in E1, E2.
    unfold materials, preferences in *. simpl. by rewrite E1, E2.
Qed.

Lemma runUI_offeredOnly onNext es : ∀ w w' calls,
  offeredOnly w → runUI onNext w es = Some (w', calls) → offeredOnly w'.
Proof.
  induction es as [|e es IH]; intros w w' calls Hw; simpl.
  - by intros [= <- _].
  - destruct (enabled w e) eqn:He; [|done].
    destruct (step_offeredOnly onNext w e Hw He) as (w1 & c1 & -> & Hw1). simpl.
    destruct (runUI onNext w1 es) as [[w2 c2]|] eqn:E2; [|done]. simpl.
    intros [= <- _]. by eapply IH.
Qed.

Lemma mount_offeredOnly : offeredOnly mount.
Proof.
  exists [], []. repeat split; try apply NoDup_nil_2; by intros v H%elem_of_nil.
Qed.

Lemma offered_chips options sel :
  (∀ v, v ∈ sel → v ∈ map value options) →
  Forall (λ v, ∃ o, o ∈ options ∧ value o = v
                    ∧ chipText (chipOf options v) = text o) sel.
Proof.
  intros H. apply Forall_forall. intros v Hv.
  destruct (findOption_offered options v (H v Hv)) as (o & E & Ho & Hvo).
  exists o. unfold chipOf. by rewrite E.
Qed.

End Offered.

(** X16: through the checkboxes and the chips the pop-up renders, the
    selections hold values of their own options only: at most two materials
    and three preferences, and every chip shows the text of an option, never
    a raw value. *)
Theorem offered_clicks_keep_selections_in_options
    (onNext : bool) (es : list Popup.Event) (w : Popup.World)
    (calls : list Popup.Payload) :
  Session.runUI onNext Popup.mount es = Some (w, calls) →
  ∃ ms ps,
    Popup.materials w = Some ms ∧ Popup.preferences w = Some ps
    ∧ (length ms ≤ 2)%nat ∧ (length ps ≤ 3)%nat
    ∧ Forall (λ v, ∃ o, o ∈ Popup.materialOptions ∧ Dropdown.value o = v
                        ∧ Dropdown.chipText (Dropdown.chipOf Popup.materialOptions v)
                          = Dropdown.text o) ms
    ∧ Forall (λ v, ∃ o, o ∈ Popup.preferenceOptions ∧ Dropdown.value o = v
                        ∧ Dropdown.chipText (Dropdown.chipOf Popup.preferenceOptions v)
                          = Dropdown.text o) ps.
Proof.
  intros Hrun.
  destruct (runUI_offeredOnly onNext es _ _ _ mount_offeredOnly Hrun)
    as (ms & ps & Hm & Hnm & Hsm & Hp & Hnp & Hsp).
  exists ms, ps. split; [done|]. split; [done|].
  split; [exact (submseteq_length _ _ (NoDup_submseteq _ _ Hnm Hsm))|].
  split; [exact (submseteq_length _ _ (NoDup_submseteq _ _ Hnp Hsp))|].
  split; by apply offered_chips.
Qed.

Lemma offered_clicks_keep_selections_in_options_witness :
  let es := [Popup.MaterialClick (str "react"); Popup.PreferenceClick (str "online");
             Popup.MaterialClick (str "javascript"); Popup.MaterialClick (str "react")] in
  ∃ w,
    Session.runUI true Popup.mount es = Some (w, [])
    ∧ Popup.materials w = Some [str "javascript"]
    ∧ ∃ ms ps,
        Popup.materials w = Some ms ∧ Popup.preferences w = Some ps
        ∧ (length ms ≤ 2)%nat ∧ (length ps ≤ 3)%nat.
Proof.
  intros es. eexists. split; [reflexivity|]. split; [reflexivity|].
  destruct (offered_clicks_keep_selections_in_options true es _ [] eq_refl)
    as (ms & ps & H1 & H2 & H3 & H4 & _).
  by exists ms, ps.
Defined.
